(** * The lock-free ring buffer of package [queue] (queue/ring.go)

    A shallow embedding of [RingBuffer] and its operations, read on one
    thread: the atomic loads, stores and compare-and-swaps become plain
    reads and writes of a record, [runtime.Gosched] does nothing, and the
    two retry loops take a number of iterations they may still run.
    Unsigned 64-bit counters are integers kept in [0, 2^64) with the
    wrap-around written out.  Construction can fail: [make] panics on a
    length the runtime does not allocate. *)

From Stdlib Require Import ZArith Lia Bool Znumtheory.
From stdpp Require Import base list.

Local Open Scope Z_scope.

Module queue.

(** ** uint64 arithmetic *)

Definition wrap (x : Z) : Z := x mod 2 ^ 64.

(** [v |= v >> k] *)
Definition smear (k v : Z) : Z := Z.lor v (Z.shiftr v k).

(** [roundUp]: the statements of the source, one per line. *)
Definition roundUp (v : Z) : Z :=
  let v := wrap (v - 1) in
  let v := smear 1 v in
  let v := smear 2 v in
  let v := smear 4 v in
  let v := smear 8 v in
  let v := smear 16 v in
  let v := smear 32 v in
  let v := wrap (v + 1) in
  v.

(** [covers v0 v m]: bit [i] of [v] is set exactly when one of the [m]
    bits of [v0] from [i] upwards is. *)
Definition covers (v0 v m : Z) : Prop :=
  forall i, 0 <= i ->
    Z.testbit v i = true <-> exists d, 0 <= d < m /\ Z.testbit v0 (i + d) = true.

Definition smear_all (v : Z) : Z :=
  smear 32 (smear 16 (smear 8 (smear 4 (smear 2 (smear 1 v))))).

(** Least power of two that is at least [v]. *)
Definition least_pow2_ge (v p : Z) : Prop :=
  (exists k, 0 <= k /\ p = 2 ^ k) /\ v <= p /\
  forall j, 0 <= j -> v <= 2 ^ j -> p <= 2 ^ j.

(** Modelled from the spec: the two error values [ErrDisposed] and
    [ErrTimeout] are declared in another file of package [queue]; the
    spec names them the Disposed and the Timeout failure.  A Go [error]
    that is [nil] is [None]. *)
Inductive error := ErrDisposed | ErrTimeout.

(** The run-time faults a call can end in: the slice index check of
    [rb.nodes[...]] and the two explicit [panic] statements. *)
Inductive fault :=
| IndexOutOfRange
| CompromisedPut
| CompromisedGet.

Section RingBuffer.

(** The payload type; an [interface{}] is [option V], [nil] being [None]. *)
Context {V : Type}.

Record node := mkNode { position : Z; data : option V }.

Record RingBuffer := mkRingBuffer {
  tail : Z;
  head : Z;
  mask : Z;
  disposed : Z;
  nodes : list node
}.

(** How a call ends: it returns [a] leaving the buffer [rb], it panics,
    or it is still inside its loop when the iterations granted to it are
    used up. *)
Inductive outcome (A : Type) :=
| Ret (a : A) (rb : RingBuffer)
| Panic (f : fault)
| Spin.
Arguments Ret {A} a rb.
Arguments Panic {A} f.
Arguments Spin {A}.

Definition zero_node : node := mkNode 0 None.

(** [make(nodes, size)] followed by the loop [rb.nodes[i] = node{position: i}]. *)
Definition init_nodes (size : nat) : list node :=
  foldl (fun ns i => <[i := mkNode (Z.of_nat i) None]> ns)
        (replicate size zero_node) (seq 0 size).

(** The largest value of Go's [int] on a 64-bit platform: [make] panics
    on a length above it.  (Where [int] is narrower, the lower bound is
    part of [limit] below.) *)
Definition max_int : Z := 2 ^ 63 - 1.

(** [make(nodes, size)].  The runtime panics ("makeslice: len out of
    range") when the length does not fit an [int] or is more than it can
    allocate; [limit], the largest length it allocates for a slice of
    nodes, depends on the platform and is a parameter here.  [None] is
    that panic. *)
Definition make (limit size : Z) : option (list node) :=
  if (size <=? limit) && (size <=? max_int)
  then Some (replicate (Z.to_nat size) zero_node)
  else None.

(** [init]; [None] when [make] panics. *)
Definition init (limit : Z) (rb : RingBuffer) (size : Z) : option RingBuffer :=
  let size := roundUp size in
  match make limit size with
  | None => None
  | Some ns =>
    Some (mkRingBuffer (tail rb) (head rb) (wrap (size - 1)) (disposed rb)
            (foldl (fun ns i => <[i := mkNode (Z.of_nat i) None]> ns)
                   ns (seq 0 (Z.to_nat size))))
  end.

Definition NewRingBuffer (limit size : Z) : option RingBuffer :=
  init limit (mkRingBuffer 0 0 0 0 []) size.

(** The buffer [NewRingBuffer] returns for [size] whenever [make] does
    not panic (lemma [NewRingBuffer_Some] below). *)
Definition fresh (size : Z) : RingBuffer :=
  mkRingBuffer 0 0 (wrap (roundUp size - 1)) 0
               (init_nodes (Z.to_nat (roundUp size))).

(** [&rb.nodes[c & rb.mask]] as an index into the slice. *)
Definition slot (rb : RingBuffer) (c : Z) : nat := Z.to_nat (Z.land c (mask rb)).

(** The two writes after [break L] in [put]. *)
Definition publish (rb : RingBuffer) (i : nat) (item : option V) (tl : Z) : RingBuffer :=
  mkRingBuffer (tail rb) (head rb) (mask rb) (disposed rb)
               (<[i := mkNode (wrap (tl + 1)) item]> (nodes rb)).

Definition set_tail (rb : RingBuffer) (t : Z) : RingBuffer :=
  mkRingBuffer t (head rb) (mask rb) (disposed rb) (nodes rb).

Definition set_head (rb : RingBuffer) (h : Z) : RingBuffer :=
  mkRingBuffer (tail rb) h (mask rb) (disposed rb) (nodes rb).

(** The loop [L] of [put]; [tl] is the local variable [tail]. *)
Fixpoint put_loop (fuel : nat) (rb : RingBuffer) (item : option V) (offer : bool)
    (tl : Z) : outcome (bool * option error) :=
  match fuel with
  | O => Spin
  | S fuel' =>
    if disposed rb =? 1 then Ret (false, Some ErrDisposed) rb
    else
      match nodes rb !! slot rb tl with
      | None => Panic IndexOutOfRange
      | Some n =>
        let pos := position n in
        let diff := wrap (pos - tl) in
        let next (tl' : Z) :=
          if offer then Ret (false, None) rb
          else put_loop fuel' rb item offer tl' in
        if diff =? 0 then
          if tail rb =? tl
          then Ret (true, None)
                   (publish (set_tail rb (wrap (tl + 1))) (slot rb tl) item tl)
          else next tl
        else if diff <? 0 then Panic CompromisedPut
        else next (tail rb)
      end
  end.

Definition put (fuel : nat) (rb : RingBuffer) (item : option V) (offer : bool)
  : outcome (bool * option error) :=
  put_loop fuel rb item offer (tail rb).

Definition Put (fuel : nat) (rb : RingBuffer) (item : option V) : outcome (option error) :=
  match put fuel rb item false with
  | Ret (_, err) rb' => Ret err rb'
  | Panic f => Panic f
  | Spin => Spin
  end.

Definition Offer (fuel : nat) (rb : RingBuffer) (item : option V)
  : outcome (bool * option error) :=
  put fuel rb item true.

(** The three statements after [break L] in [Poll]. *)
Definition release (rb : RingBuffer) (i : nat) (pos : Z) : RingBuffer :=
  mkRingBuffer (tail rb) (head rb) (mask rb) (disposed rb)
               (<[i := mkNode (wrap (wrap (pos + mask rb) + 1)) None]> (nodes rb)).

(** The loop [L] of [Poll].  [since k] is what [time.Since(start)] reads
    in the iteration numbered [k]; it is read only under [timeout > 0]. *)
Fixpoint Poll_loop (fuel : nat) (since : nat -> Z) (k : nat) (rb : RingBuffer)
    (timeout : Z) (pos : Z) : outcome (option V * option error) :=
  match fuel with
  | O => Spin
  | S fuel' =>
    if disposed rb =? 1 then Ret (None, Some ErrDisposed) rb
    else
      match nodes rb !! slot rb pos with
      | None => Panic IndexOutOfRange
      | Some n =>
        let seq := position n in
        let dif := wrap (seq - wrap (pos + 1)) in
        let next (pos' : Z) :=
          if (0 <? timeout) && (timeout <=? since k)
          then Ret (None, Some ErrTimeout) rb
          else Poll_loop fuel' since (S k) rb timeout pos' in
        if dif =? 0 then
          if head rb =? pos
          then Ret (data n, None)
                   (release (set_head rb (wrap (pos + 1))) (slot rb pos) pos)
          else next pos
        else if dif <? 0 then Panic CompromisedGet
        else next (head rb)
      end
  end.

Definition Poll (fuel : nat) (since : nat -> Z) (rb : RingBuffer) (timeout : Z)
  : outcome (option V * option error) :=
  Poll_loop fuel since 0%nat rb timeout (head rb).

Definition Get (fuel : nat) (since : nat -> Z) (rb : RingBuffer)
  : outcome (option V * option error) :=
  Poll fuel since rb 0.

Definition Len (rb : RingBuffer) : Z := wrap (tail rb - head rb).

Definition Cap (rb : RingBuffer) : Z := Z.of_nat (length (nodes rb)).

(** [atomic.CompareAndSwapUint64(&rb.disposed, 0, 1)] *)
Definition Dispose (rb : RingBuffer) : RingBuffer :=
  if disposed rb =? 0
  then mkRingBuffer (tail rb) (head rb) (mask rb) 1 (nodes rb)
  else rb.

Definition IsDisposed (rb : RingBuffer) : bool := disposed rb =? 1.

(** ** Calls on one thread, and the states they reach *)

Inductive op :=
| OpPut (item : option V)
| OpOffer (item : option V)
| OpGet
| OpPoll (timeout : Z)
| OpDispose.

Definition state_of {A : Type} (o : outcome A) : option RingBuffer :=
  match o with
  | Ret _ rb => Some rb
  | _ => None
  end.

(** The buffer a call leaves when it returns; [None] when it panics or is
    still spinning after [fuel] iterations. *)
Definition call (fuel : nat) (since : nat -> Z) (o : op) (rb : RingBuffer)
  : option RingBuffer :=
  match o with
  | OpPut item => state_of (Put fuel rb item)
  | OpOffer item => state_of (Offer fuel rb item)
  | OpGet => state_of (Get fuel since rb)
  | OpPoll timeout => state_of (Poll fuel since rb timeout)
  | OpDispose => Some (Dispose rb)
  end.

Inductive reachable_from (rb0 : RingBuffer) : RingBuffer -> Prop :=
| reach_here : reachable_from rb0 rb0
| reach_call rb rb' fuel since o :
    reachable_from rb0 rb ->
    call fuel since o rb = Some rb' ->
    reachable_from rb0 rb'.

(** The states a buffer constructed with [NewRingBuffer(size)] reaches. *)
Definition reachable (limit size : Z) (rb : RingBuffer) : Prop :=
  exists rb0, NewRingBuffer limit size = Some rb0 /\ reachable_from rb0 rb.

(** The same, starting from [fresh size]; the form the proofs work on. *)
Definition reachable_fresh (size : Z) : RingBuffer -> Prop :=
  reachable_from (fresh size).

(** [Put] called on each item of [vs] in turn; [None] as soon as one call
    does not return a nil error. *)
Fixpoint put_all (fuel : nat) (rb : RingBuffer) (vs : list (option V))
  : option RingBuffer :=
  match vs with
  | [] => Some rb
  | v :: vs' =>
    match Put fuel rb v with
    | Ret None rb' => put_all fuel rb' vs'
    | _ => None
    end
  end.

(** [Get] called [n] times; the values returned, in the order of the
    calls, or [None] as soon as one call does not return a nil error. *)
Fixpoint get_all (fuel : nat) (since : nat -> Z) (rb : RingBuffer) (n : nat)
  : option (list (option V) * RingBuffer) :=
  match n with
  | O => Some ([], rb)
  | S n' =>
    match Get fuel since rb with
    | Ret (v, None) rb' =>
      match get_all fuel since rb' n' with
      | Some (vs, rb'') => Some (v :: vs, rb'')
      | None => None
      end
    | _ => None
    end
  end.

(** ** The representation invariant

    [Inv rb H q]: the buffer holds the items [q], oldest first, after [H]
    items have been taken out of it over its life.  [H] is not reduced
    modulo [2^64]; the counters of the buffer are. *)

Definition idx (cap x : Z) : nat := Z.to_nat (x mod cap).

Record Inv (rb : RingBuffer) (H : Z) (q : list (option V)) : Prop := mkInv {
  inv_cap : exists k, 0 <= k <= 63 /\ Cap rb = 2 ^ k;
  inv_mask : mask rb = Cap rb - 1;
  inv_H : 0 <= H;
  inv_head : head rb = wrap H;
  inv_tail : tail rb = wrap (H + Z.of_nat (length q));
  inv_len : Z.of_nat (length q) <= Cap rb;
  inv_used : forall (j : nat) v, q !! j = Some v ->
    nodes rb !! idx (Cap rb) (H + Z.of_nat j)
    = Some (mkNode (wrap (H + Z.of_nat j + 1)) v);
  inv_free : forall j : nat, (length q <= j)%nat -> Z.of_nat j < Cap rb ->
    nodes rb !! idx (Cap rb) (H + Z.of_nat j)
    = Some (mkNode (wrap (H + Z.of_nat j)) None)
}.

End RingBuffer.

Arguments node : clear implicits.
Arguments RingBuffer : clear implicits.
Arguments Ret {V A} a rb.
Arguments Panic {V A} f.
Arguments Spin {V A}.
Arguments op : clear implicits.

(** ** Runs of calls, with what went in and what came out *)

Section Runs.

Context {V : Type}.

(** One call of a run: the iterations granted to it, what its clock
    reads, and the call. *)
Definition step : Type := nat * (nat -> Z) * op V.

(** The buffer a call leaves when it returns, the item it stored (Put
    with a nil error, Offer with [true]) and the value it handed out (Get
    or Poll with a nil error). *)
Definition run_step (s : step) (rb : RingBuffer V)
  : option (RingBuffer V * list (option V) * list (option V)) :=
  let '(fuel, since, o) := s in
  match o with
  | OpPut item =>
    match Put fuel rb item with
    | Ret None rb' => Some (rb', [item], [])
    | Ret (Some _) rb' => Some (rb', [], [])
    | _ => None
    end
  | OpOffer item =>
    match Offer fuel rb item with
    | Ret (true, _) rb' => Some (rb', [item], [])
    | Ret (false, _) rb' => Some (rb', [], [])
    | _ => None
    end
  | OpGet =>
    match Get fuel since rb with
    | Ret (v, None) rb' => Some (rb', [], [v])
    | Ret (_, Some _) rb' => Some (rb', [], [])
    | _ => None
    end
  | OpPoll timeout =>
    match Poll fuel since rb timeout with
    | Ret (v, None) rb' => Some (rb', [], [v])
    | Ret (_, Some _) rb' => Some (rb', [], [])
    | _ => None
    end
  | OpDispose => Some (Dispose rb, [], [])
  end.

(** The calls of [steps] one after the other; the items stored and the
    values handed out, each in the order of the calls.  [None] when a
    call panics or does not return. *)
Fixpoint run (steps : list step) (rb : RingBuffer V)
  : option (RingBuffer V * list (option V) * list (option V)) :=
  match steps with
  | [] => Some (rb, [], [])
  | s :: steps' =>
    match run_step s rb with
    | Some (rb1, p1, g1) =>
      match run steps' rb1 with
      | Some (rb2, p2, g2) => Some (rb2, p1 ++ p2, g1 ++ g2)
      | None => None
      end
    | None => None
    end
  end.

End Runs.

Arguments step : clear implicits.

(** ** Concrete buffers of natural numbers used in the examples below *)

Definition since0 : nat -> Z := fun _ => 0.

(** [NewRingBuffer(size)] on a runtime that allocates every length that
    fits an [int]. *)
Definition new (size : Z) : RingBuffer nat :=
  default (mkRingBuffer 0 0 0 0 []) (NewRingBuffer max_int size).

Definition put_or_same (rb : RingBuffer nat) (v : nat) : RingBuffer nat :=
  match Put 1 rb (Some v) with
  | Ret _ rb' => rb'
  | _ => rb
  end.

(** Capacity 4 after [Put(1); Put(2); Put(3); Put(4)]. *)
Definition rb_full4 : RingBuffer nat :=
  foldl put_or_same (new 4) [1; 2; 3; 4]%nat.

(** Capacity 1 after [Put(1)]. *)
Definition rb_full1 : RingBuffer nat := put_or_same (new 1) 1%nat.

(** Capacity 1 after [Put(1); Put(2)]. *)
Definition rb_over1 : RingBuffer nat := put_or_same rb_full1 2%nat.

(** Capacity 4, nothing put yet. *)
Definition rb_empty4 : RingBuffer nat := new 4.

(** Requested size 0, then [Dispose()]. *)
Definition rb_zero_disposed : RingBuffer nat := Dispose (new 0).

(** Capacity 2: [Put(1); Put(2); Offer(3); Get(); Put(4); Poll(5); Dispose();
    Get()], the clock reading 9 throughout. *)
Definition steps_example : list (step nat) :=
  [(1%nat, since0, OpPut (Some 1%nat)); (1%nat, since0, OpPut (Some 2%nat));
   (1%nat, since0, OpOffer (Some 3%nat)); (1%nat, since0, OpGet);
   (1%nat, since0, OpPut (Some 4%nat)); (1%nat, fun _ => 9, OpPoll 5);
   (0%nat, since0, OpDispose); (1%nat, since0, OpGet)].

(** * Properties *)

(** ** roundUp *)

Lemma covers_refl v0 : covers v0 v0 1.
Proof.
  intros i Hi. split.
  - intros Hb. exists 0. by rewrite Z.add_0_r.
  - intros (d & Hd & Hb). by replace (i + d) with i in Hb by lia.
Qed.

Lemma covers_smear v0 v m :
  0 < m -> covers v0 v m -> covers v0 (smear m v) (2 * m).
Proof.
  intros Hm Hc i Hi. unfold smear.
  rewrite Z.lor_spec, Z.shiftr_spec, orb_true_iff by done.
  rewrite (Hc i), (Hc (i + m)) by lia. split.
  - intros [(d & Hd & Hb)|(d & Hd & Hb)].
    + exists d. split; [lia|done].
    + exists (m + d). split; [lia|]. by rewrite Z.add_assoc.
  - intros (d & Hd & Hb). destruct (Z_lt_ge_dec d m) as [Hlt|Hge].
    + left. exists d. split; [lia|done].
    + right. exists (d - m). split; [lia|].
      by replace (i + m + (d - m)) with (i + d) by lia.
Qed.

Lemma covers_smear_all v0 : covers v0 (smear_all v0) 64.
Proof.
  unfold smear_all.
  apply (covers_smear v0 _ 32); [lia|].
  apply (covers_smear v0 _ 16); [lia|].
  apply (covers_smear v0 _ 8); [lia|].
  apply (covers_smear v0 _ 4); [lia|].
  apply (covers_smear v0 _ 2); [lia|].
  apply (covers_smear v0 _ 1); [lia|].
  apply covers_refl.
Qed.

(** Smearing a non-zero 64-bit value sets every bit below its top bit. *)
Lemma smear_all_ones v :
  0 < v < 2 ^ 64 -> smear_all v = Z.ones (Z.log2 v + 1).
Proof.
  intros Hv. pose proof (Z.log2_nonneg v) as Hl.
  assert (Z.log2 v < 64) as Hl64 by (apply Z.log2_lt_pow2; lia).
  apply Z.bits_inj'. intros i Hi.
  rewrite Z.testbit_ones_nonneg by lia.
  destruct (Z.ltb_spec i (Z.log2 v + 1)) as [Hlt|Hge].
  - apply (covers_smear_all v i Hi). exists (Z.log2 v - i). split; [lia|].
    replace (i + (Z.log2 v - i)) with (Z.log2 v) by lia.
    apply Z.bit_log2. lia.
  - destruct (Z.testbit (smear_all v) i) eqn:Hb; [|done].
    apply (covers_smear_all v i Hi) in Hb as (d & Hd & Hb).
    rewrite Z.bits_above_log2 in Hb by lia. done.
Qed.

Lemma roundUp_smear v : roundUp v = wrap (smear_all (wrap (v - 1)) + 1).
Proof. reflexivity. Qed.

Lemma wrap_small x : 0 <= x < 2 ^ 64 -> wrap x = x.
Proof. apply Z.mod_small. Qed.

Lemma wrap_range x : 0 <= wrap x < 2 ^ 64.
Proof. apply Z.mod_pos_bound. lia. Qed.

(** On [1 .. 2^63] roundUp is two to the power of the rounded-up binary
    logarithm. *)
Lemma roundUp_log2_up v :
  0 < v <= 2 ^ 63 -> roundUp v = 2 ^ Z.log2_up v.
Proof.
  intros Hv. destruct (Z.eq_dec v 1) as [->|Hne]; [reflexivity|].
  rewrite roundUp_smear, (wrap_small (v - 1)) by lia.
  rewrite smear_all_ones, Z.ones_equiv by lia.
  assert (Z.log2_up v = Z.log2 (v - 1) + 1) as ->.
  { unfold Z.log2_up. destruct (Z.compare_spec 1 v); [lia| |lia].
    by rewrite <- Z.sub_1_r, <- Z.add_1_r. }
  pose proof (Z.log2_nonneg (v - 1)) as Hl.
  assert (Z.log2 (v - 1) < 63) as Hl63 by (apply Z.log2_lt_pow2; lia).
  assert (2 ^ (Z.log2 (v - 1) + 1) <= 2 ^ 63) by (apply Z.pow_le_mono_r; lia).
  assert (0 < 2 ^ (Z.log2 (v - 1) + 1)) by (apply Z.pow_pos_nonneg; lia).
  replace (Z.pred (2 ^ (Z.log2 (v - 1) + 1)) + 1)
    with (2 ^ (Z.log2 (v - 1) + 1)) by (unfold Z.pred; lia).
  apply wrap_small. lia.
Qed.

(** Above [2^63] the next power of two is [2^64], which a uint64 cannot
    hold: the final increment wraps to 0.  The same happens at 0. *)
Lemma roundUp_wraps v :
  v = 0 \/ 2 ^ 63 < v < 2 ^ 64 -> roundUp v = 0.
Proof.
  intros [->|Hv]; [reflexivity|].
  rewrite roundUp_smear, (wrap_small (v - 1)) by lia.
  rewrite smear_all_ones by lia.
  assert (Z.log2 (v - 1) = 63) as ->.
  { apply Z.log2_unique; [lia|]. change (Z.succ 63) with 64. lia. }
  reflexivity.
Qed.

Lemma roundUp_least_pow2 v :
  0 < v <= 2 ^ 63 -> least_pow2_ge v (roundUp v) /\ roundUp v <= 2 ^ 63.
Proof.
  intros Hv. rewrite roundUp_log2_up by done.
  pose proof (Z.log2_up_nonneg v) as Hl.
  assert (Z.log2_up v <= 63) as Hl63 by (apply Z.log2_up_le_pow2; lia).
  split; [split; [|split]|].
  - by exists (Z.log2_up v).
  - apply Z.log2_up_le_pow2; lia.
  - intros j Hj Hle. apply Z.pow_le_mono_r; [lia|].
    apply Z.log2_up_le_pow2; lia.
  - apply Z.pow_le_mono_r; lia.
Qed.

Section Frame.

Context {V : Type}.
Implicit Types (rb : RingBuffer V) (item : option V).

(** ** What a returning call may have changed *)

Lemma put_loop_ret fuel rb item offer tl r rb' :
  put_loop fuel rb item offer tl = Ret r rb' ->
  rb' = rb \/
  exists t, rb' = publish (set_tail rb (wrap (t + 1))) (slot rb t) item t.
Proof.
  revert tl. induction fuel as [|fuel IH]; intros tl; simpl; [discriminate|].
  destruct (disposed rb =? 1); [intros [= _ <-]; by left|].
  destruct (nodes rb !! slot rb tl) as [n|]; [|discriminate].
  destruct (wrap (position n - tl) =? 0).
  - destruct (tail rb =? tl).
    + intros [= _ <-]. right. by exists tl.
    + destruct offer; [intros [= _ <-]; by left|apply IH].
  - destruct (wrap (position n - tl) <? 0); [discriminate|].
    destruct offer; [intros [= _ <-]; by left|apply IH].
Qed.

Lemma Poll_loop_ret fuel since k rb timeout pos r rb' :
  Poll_loop fuel since k rb timeout pos = Ret r rb' ->
  rb' = rb \/
  exists p, rb' = release (set_head rb (wrap (p + 1))) (slot rb p) p.
Proof.
  revert k pos. induction fuel as [|fuel IH]; intros k pos; simpl; [discriminate|].
  destruct (disposed rb =? 1); [intros [= _ <-]; by left|].
  destruct (nodes rb !! slot rb pos) as [n|]; [|discriminate].
  destruct (wrap (position n - wrap (pos + 1)) =? 0).
  - destruct (head rb =? pos).
    + intros [= _ <-]. right. by exists pos.
    + destruct ((0 <? timeout) && (timeout <=? since k));
        [intros [= _ <-]; by left|apply IH].
  - destruct (wrap (position n - wrap (pos + 1)) <? 0); [discriminate|].
    destruct ((0 <? timeout) && (timeout <=? since k));
      [intros [= _ <-]; by left|apply IH].
Qed.

Lemma Put_ret fuel rb item e rb' :
  Put fuel rb item = Ret e rb' ->
  exists b, put fuel rb item false = Ret (b, e) rb'.
Proof.
  unfold Put. destruct (put fuel rb item false) as [[b e'] rb''| |]; try discriminate.
  intros [= <- <-]. by exists b.
Qed.

(** No call touches [mask], [disposed] or the length of the slice, except
    [Dispose], which sets [disposed]. *)
Lemma call_frame fuel since (o : op V) rb rb' :
  call fuel since o rb = Some rb' ->
  mask rb' = mask rb /\ Cap rb' = Cap rb /\
  (disposed rb' = disposed rb \/ disposed rb' = 1).
Proof.
  assert (Hput : forall f item offer r, put f rb item offer = Ret r rb' ->
    mask rb' = mask rb /\ Cap rb' = Cap rb /\
    (disposed rb' = disposed rb \/ disposed rb' = 1)).
  { intros f item offer r [->|[t ->]]%put_loop_ret; [tauto|].
    unfold Cap; simpl. rewrite length_insert. tauto. }
  assert (Hpoll : forall f timeout r, Poll f since rb timeout = Ret r rb' ->
    mask rb' = mask rb /\ Cap rb' = Cap rb /\
    (disposed rb' = disposed rb \/ disposed rb' = 1)).
  { intros f timeout r [->|[t ->]]%Poll_loop_ret; [tauto|].
    unfold Cap; simpl. rewrite length_insert. tauto. }
  destruct o as [item|item| |timeout|]; simpl.
  - destruct (Put fuel rb item) as [e rb''| |] eqn:E; simpl; try discriminate.
    intros [= ->]. apply Put_ret in E as [b E]. eauto.
  - unfold Offer. destruct (put fuel rb item true) as [r rb''| |] eqn:E;
      simpl; try discriminate.
    intros [= ->]. eauto.
  - unfold Get. destruct (Poll fuel since rb 0) as [r rb''| |] eqn:E;
      simpl; try discriminate.
    intros [= ->]. eauto.
  - destruct (Poll fuel since rb timeout) as [r rb''| |] eqn:E;
      simpl; try discriminate.
    intros [= ->]. eauto.
  - intros [= <-]. unfold Dispose.
    destruct (disposed rb =? 0); simpl; tauto.
Qed.

Lemma reachable_from_frame rb0 rb :
  reachable_from rb0 rb ->
  mask rb = mask rb0 /\ Cap rb = Cap rb0 /\
  (disposed rb = disposed rb0 \/ disposed rb = 1).
Proof.
  induction 1 as [|rb rb' fuel since o _ IH Hc]; [tauto|].
  apply call_frame in Hc. destruct IH as (Em & Ec & Ed), Hc as (Em' & Ec' & Ed').
  rewrite Em', Ec', Em, Ec. repeat split. destruct Ed, Ed'; intuition congruence.
Qed.

(** ** Calls on a disposed buffer *)

Lemma put_disposed fuel rb item offer :
  disposed rb = 1 ->
  put (S fuel) rb item offer = Ret (false, Some ErrDisposed) rb.
Proof. intros Hd. unfold put; simpl. by rewrite Hd. Qed.

Lemma Poll_disposed fuel since rb timeout :
  disposed rb = 1 ->
  Poll (S fuel) since rb timeout = Ret (None, Some ErrDisposed) rb.
Proof. intros Hd. unfold Poll; simpl. by rewrite Hd. Qed.

(** C5: in every state whose disposed flag is set, reachable or not, each
    of Put, Offer, Get and Poll returns the Disposed failure in its first
    loop iteration, and the buffer it leaves is the buffer it was given:
    tail, head and every slot are unchanged. *)
Theorem disposed_calls_return_ErrDisposed rb fuel since item timeout :
  disposed rb = 1 ->
  Put (S fuel) rb item = Ret (Some ErrDisposed) rb /\
  Offer (S fuel) rb item = Ret (false, Some ErrDisposed) rb /\
  Get (S fuel) since rb = Ret (None, Some ErrDisposed) rb /\
  Poll (S fuel) since rb timeout = Ret (None, Some ErrDisposed) rb.
Proof.
  intros Hd. unfold Put, Offer, Get.
  rewrite !put_disposed, !Poll_disposed by done. done.
Qed.

(** ** Dispose *)

Lemma Dispose_disposed rb : disposed rb = 1 -> Dispose rb = rb.
Proof. intros Hd. unfold Dispose. by rewrite Hd. Qed.

Lemma Dispose_idempotent rb : Dispose (Dispose rb) = Dispose rb.
Proof.
  unfold Dispose. destruct (disposed rb =? 0) eqn:E; simpl; [done|].
  by rewrite E.
Qed.

(** C9: on a buffer that is not yet disposed, Dispose writes 1 to the
    disposed flag and leaves tail, head, mask and the slots (sequence and
    value of each) as they were; a second Dispose changes nothing; and
    IsDisposed is true in every state that calls reach afterwards. *)
Theorem Dispose_sets_only_the_flag rb :
  disposed rb = 0 ->
  Dispose rb = mkRingBuffer (tail rb) (head rb) (mask rb) 1 (nodes rb) /\
  Dispose (Dispose rb) = Dispose rb /\
  forall rb', reachable_from (Dispose rb) rb' -> IsDisposed rb' = true.
Proof.
  intros Hd. split; [|split].
  - unfold Dispose. by rewrite Hd.
  - apply Dispose_idempotent.
  - intros rb' (_ & _ & Hr)%reachable_from_frame. unfold IsDisposed.
    assert (disposed (Dispose rb) = 1) as E by (unfold Dispose; by rewrite Hd).
    apply Z.eqb_eq. lia.
Qed.

(** ** Poll with a timeout that is not positive *)

Lemma Poll_loop_nonpositive fuel since since' k k' rb timeout pos :
  timeout <= 0 ->
  Poll_loop fuel since k rb timeout pos = Poll_loop fuel since' k' rb 0 pos.
Proof.
  intros Ht. revert k k' pos. induction fuel as [|fuel IH]; intros k k' pos; [done|].
  simpl. replace (0 <? timeout) with false by (symmetry; apply Z.ltb_ge; lia).
  simpl. destruct (disposed rb =? 1); [done|].
  destruct (nodes rb !! slot rb pos) as [n|]; [|done].
  destruct (wrap (position n - wrap (pos + 1)) =? 0).
  - destruct (head rb =? pos); [done|apply IH].
  - destruct (wrap (position n - wrap (pos + 1)) <? 0); [done|apply IH].
Qed.

Lemma Poll_loop_zero_cases fuel since k rb pos :
  Poll_loop fuel since k rb 0 pos = Spin \/
  Poll_loop fuel since k rb 0 pos = Panic IndexOutOfRange \/
  Poll_loop fuel since k rb 0 pos = Ret (None, Some ErrDisposed) rb \/
  exists v rb', Poll_loop fuel since k rb 0 pos = Ret (v, None) rb'.
Proof.
  revert k pos. induction fuel as [|fuel IH]; intros k pos; [by left|].
  simpl. destruct (disposed rb =? 1); [tauto|].
  destruct (nodes rb !! slot rb pos) as [n|]; [|tauto].
  destruct (wrap (position n - wrap (pos + 1)) =? 0) eqn:E0.
  - destruct (head rb =? pos); [|apply IH].
    right; right; right. eauto.
  - destruct (wrap (position n - wrap (pos + 1)) <? 0) eqn:E1; [|apply IH].
    apply Z.ltb_lt in E1. unfold wrap in E1.
    pose proof (Z.mod_pos_bound (position n - (pos + 1) mod 2 ^ 64) (2 ^ 64)). lia.
Qed.

(** C7: Get is Poll(0); under a timeout that is not positive Poll does
    what Get does whatever the clock reads, so it never returns the
    Timeout failure: after any number of iterations it is still waiting,
    or it has returned a value, or it has returned Disposed (or the slice
    index was out of range, which a buffer of capacity 0 causes). *)
Theorem Get_is_Poll_without_timeout rb fuel since timeout :
  timeout <= 0 ->
  Get fuel since rb = Poll fuel since rb 0 /\
  (forall since', Poll fuel since' rb timeout = Get fuel since rb) /\
  (forall v rb', Poll fuel since rb timeout <> Ret (v, Some ErrTimeout) rb') /\
  (Poll fuel since rb timeout = Spin \/
   Poll fuel since rb timeout = Panic IndexOutOfRange \/
   Poll fuel since rb timeout = Ret (None, Some ErrDisposed) rb \/
   exists v rb', Poll fuel since rb timeout = Ret (v, None) rb').
Proof.
  intros Ht.
  assert (E : forall since', Poll fuel since' rb timeout = Get fuel since rb).
  { intros since'. unfold Get, Poll. by apply Poll_loop_nonpositive. }
  split; [done|]. split; [done|].
  rewrite (E since). unfold Get, Poll.
  pose proof (Poll_loop_zero_cases fuel since 0%nat rb (head rb)) as Hc.
  split; [|done].
  intros v rb' Hr. rewrite Hr in Hc.
  destruct Hc as [?|[?|[?|(? & ? & ?)]]]; discriminate.
Qed.

End Frame.

Section Construction.

Context {V : Type}.
Implicit Types (rb : RingBuffer V).

Lemma init_nodes_prefix (n m : nat) :
  (m <= n)%nat ->
  foldl (fun ns i => <[i := mkNode (V:=V) (Z.of_nat i) None]> ns)
        (replicate n zero_node) (seq 0 m)
  = ((fun i => mkNode (Z.of_nat i) None) <$> seq 0 m)
    ++ replicate (n - m) zero_node.
Proof.
  induction m as [|m IH]; intros Hm.
  - simpl. by rewrite Nat.sub_0_r.
  - rewrite seq_S, foldl_app, fmap_app. simpl. rewrite IH by lia.
    replace (n - m)%nat with (S (n - S m)) by lia. simpl.
    rewrite <- app_assoc. simpl.
    rewrite insert_app_r_alt; rewrite length_fmap, length_seq; [|lia].
    by rewrite Nat.sub_diag.
Qed.

(** After [init] the slot numbered [i] holds the sequence [i] and no value. *)
Lemma init_nodes_fmap (n : nat) :
  init_nodes (V:=V) n = (fun i => mkNode (Z.of_nat i) None) <$> seq 0 n.
Proof.
  unfold init_nodes. rewrite init_nodes_prefix by lia.
  rewrite Nat.sub_diag. simpl. apply app_nil_r.
Qed.

Lemma init_nodes_length (n : nat) : length (init_nodes (V:=V) n) = n.
Proof. by rewrite init_nodes_fmap, length_fmap, length_seq. Qed.

Lemma init_nodes_lookup (n i : nat) :
  (i < n)%nat -> init_nodes (V:=V) n !! i = Some (mkNode (Z.of_nat i) None).
Proof.
  intros Hi. rewrite init_nodes_fmap, list_lookup_fmap, lookup_seq_lt by done.
  done.
Qed.

Lemma Cap_fresh size : Cap (fresh (V:=V) size) = roundUp size.
Proof.
  unfold Cap, fresh. simpl. rewrite init_nodes_length.
  apply Z2Nat.id. rewrite roundUp_smear. apply wrap_range.
Qed.

Lemma NewRingBuffer_Some limit size rb0 :
  NewRingBuffer (V:=V) limit size = Some rb0 <->
  (roundUp size <= limit /\ roundUp size <= max_int) /\ rb0 = fresh size.
Proof.
  unfold NewRingBuffer, init, make, fresh, init_nodes. cbn [tail head disposed].
  destruct (Z.leb_spec (roundUp size) limit) as [Hl|Hl];
    destruct (Z.leb_spec (roundUp size) max_int) as [Hm|Hm]; cbn [andb]; split;
    try (intros [= <-]; done); try (intros [[? ?] _]; lia).
  by intros [_ ->].
Qed.

(** Sizes whose rounded value does not fit an [int] cannot be built. *)
Lemma NewRingBuffer_too_large limit size :
  2 ^ 62 < size <= 2 ^ 63 -> NewRingBuffer (V:=V) limit size = None.
Proof.
  intros Hs. destruct (NewRingBuffer (V:=V) limit size) as [rb0|] eqn:E; [|done].
  apply NewRingBuffer_Some in E as [[_ Hm] _].
  rewrite roundUp_log2_up in Hm by lia.
  assert (62 < Z.log2_up size) by (apply Z.log2_up_lt_pow2; lia).
  assert (2 ^ 63 <= 2 ^ Z.log2_up size) by (apply Z.pow_le_mono_r; lia).
  unfold max_int in Hm. lia.
Qed.

Lemma roundUp_fits_int size : 0 < size <= 2 ^ 62 -> roundUp size <= max_int.
Proof.
  intros Hs. rewrite roundUp_log2_up by lia.
  assert (Z.log2_up size <= 62) by (apply Z.log2_up_le_pow2; lia).
  assert (2 ^ Z.log2_up size <= 2 ^ 62) by (apply Z.pow_le_mono_r; lia).
  unfold max_int. lia.
Qed.

Lemma reachable_fresh_of limit size rb :
  reachable limit size rb -> reachable_fresh size rb.
Proof. by intros (rb0 & [_ ->]%NewRingBuffer_Some & Hr). Qed.

Lemma reachable_of_fresh limit size rb :
  roundUp size <= limit -> roundUp size <= max_int ->
  reachable_fresh size rb -> reachable limit size rb.
Proof.
  intros Hl Hm Hr. exists (fresh size). split; [|done].
  by apply NewRingBuffer_Some.
Qed.

Lemma reachable_Cap size rb :
  reachable_fresh size rb -> Cap rb = roundUp size.
Proof.
  intros (_ & -> & _)%reachable_from_frame. apply Cap_fresh.
Qed.

Lemma Cap_is_least_power_of_two_fresh size :
  0 < size <= 2 ^ 63 ->
  least_pow2_ge size (Cap (fresh (V:=V) size)) /\
  (forall rb, reachable_fresh size rb -> Cap rb = Cap (fresh (V:=V) size)) /\
  ((exists k, size = 2 ^ k) -> Cap (fresh (V:=V) size) = size).
Proof.
  intros Hs. rewrite Cap_fresh.
  destruct (roundUp_least_pow2 size Hs) as [(Hp & Hge & Hmin) _].
  split; [done|]. split; [apply reachable_Cap|].
  intros [k ->]. destruct (Z.lt_ge_cases k 0) as [Hk|Hk].
  - rewrite Z.pow_neg_r in Hs by done. lia.
  - specialize (Hmin k Hk). lia.
Qed.

(** C3 (amended): for every requested size from 1 to 2^62 whose rounded
    value the runtime can allocate, NewRingBuffer returns a buffer whose
    Cap() is the least power of two that is at least the size; Cap() is
    the same in every state the buffer reaches, and a size that is a
    power of two is kept.  (For a rounded value of 2^63 or one above the
    allocation limit, make panics and there is no buffer.) *)
Theorem Cap_is_least_power_of_two limit size :
  0 < size <= 2 ^ 62 -> roundUp size <= limit ->
  exists rb0, NewRingBuffer (V:=V) limit size = Some rb0 /\
    least_pow2_ge size (Cap rb0) /\
    (forall rb, reachable limit size rb -> Cap rb = Cap rb0) /\
    ((exists k, size = 2 ^ k) -> Cap rb0 = size).
Proof.
  intros Hs Hl. exists (fresh size).
  split; [apply NewRingBuffer_Some; by auto using roundUp_fits_int|].
  destruct (Cap_is_least_power_of_two_fresh size ltac:(lia)) as (Hp & Hc & Hk).
  split; [done|]. split; [|done].
  intros rb Hr%reachable_fresh_of. by apply Hc.
Qed.

End Construction.

(** ** Arithmetic of wrapped counters and slot indices *)

Lemma wrap_add_l a b : wrap (wrap a + b) = wrap (a + b).
Proof. unfold wrap. apply Z.add_mod_idemp_l. lia. Qed.

Lemma wrap_sub a b : wrap (wrap a - wrap b) = wrap (a - b).
Proof. unfold wrap. by rewrite Zminus_mod_idemp_l, Zminus_mod_idemp_r. Qed.

Lemma land_mask x k :
  0 <= k <= 63 -> Z.land (wrap x) (2 ^ k - 1) = x mod 2 ^ k.
Proof.
  intros Hk. rewrite Z.sub_1_r, <- Z.ones_equiv, Z.land_ones by lia.
  unfold wrap. apply Z.mod_mod_divide.
  exists (2 ^ (64 - k)). rewrite <- Z.pow_add_r by lia. f_equal. lia.
Qed.

Lemma idx_inj cap H a b :
  0 < cap -> 0 <= a < cap -> 0 <= b < cap ->
  idx cap (H + a) = idx cap (H + b) -> a = b.
Proof.
  intros Hc Ha Hb E. unfold idx in E.
  pose proof (Z.mod_pos_bound (H + a) cap Hc).
  pose proof (Z.mod_pos_bound (H + b) cap Hc).
  apply Z2Nat.inj in E; [|lia..].
  pose proof (Z.div_mod (H + a) cap ltac:(lia)) as Da.
  pose proof (Z.div_mod (H + b) cap ltac:(lia)) as Db.
  rewrite E in Da.
  set (d := (H + a) / cap - (H + b) / cap).
  assert (a - b = cap * d) as Hd by (unfold d; lia).
  assert (d = 0) as Hz by nia. rewrite Hz in Hd. lia.
Qed.

Lemma idx_add_cap cap x : idx cap (x + cap) = idx cap x.
Proof.
  unfold idx. f_equal. rewrite <- (Z.mul_1_l cap) at 1. apply Z_mod_plus_full.
Qed.

Lemma idx_small cap (j : nat) : Z.of_nat j < cap -> idx cap (Z.of_nat j) = j.
Proof.
  intros Hj. unfold idx. rewrite Z.mod_small by lia. apply Nat2Z.id.
Qed.

Section Invariant.

Context {V : Type}.
Implicit Types (rb : RingBuffer V) (item : option V) (q : list (option V)).

(** ** One iteration of each loop *)

Lemma put_loop_claim fuel rb item offer n :
  disposed rb <> 1 ->
  nodes rb !! slot rb (tail rb) = Some n ->
  wrap (position n - tail rb) = 0 ->
  put_loop (S fuel) rb item offer (tail rb)
  = Ret (true, None)
        (publish (set_tail rb (wrap (tail rb + 1))) (slot rb (tail rb)) item (tail rb)).
Proof.
  intros Hd Hn Hp. simpl. rewrite Hn, Hp. simpl. rewrite Z.eqb_refl.
  by destruct (Z.eqb_spec (disposed rb) 1).
Qed.

Lemma put_loop_busy fuel rb item offer tl n :
  disposed rb <> 1 ->
  nodes rb !! slot rb tl = Some n ->
  wrap (position n - tl) <> 0 ->
  put_loop (S fuel) rb item offer tl
  = if offer then Ret (false, None) rb
    else put_loop fuel rb item offer (tail rb).
Proof.
  intros Hd Hn Hp. simpl. rewrite Hn.
  destruct (Z.eqb_spec (disposed rb) 1); [done|].
  destruct (Z.eqb_spec (wrap (position n - tl)) 0); [done|].
  destruct (Z.ltb_spec (wrap (position n - tl)) 0) as [Hlt|]; [|done].
  pose proof (wrap_range (position n - tl)). lia.
Qed.

Lemma Poll_loop_claim fuel since k rb timeout n :
  disposed rb <> 1 ->
  nodes rb !! slot rb (head rb) = Some n ->
  wrap (position n - wrap (head rb + 1)) = 0 ->
  Poll_loop (S fuel) since k rb timeout (head rb)
  = Ret (data n, None)
        (release (set_head rb (wrap (head rb + 1))) (slot rb (head rb)) (head rb)).
Proof.
  intros Hd Hn Hp. simpl. rewrite Hn, Hp. simpl. rewrite Z.eqb_refl.
  by destruct (Z.eqb_spec (disposed rb) 1).
Qed.

Lemma Poll_loop_busy fuel since k rb timeout pos n :
  disposed rb <> 1 ->
  nodes rb !! slot rb pos = Some n ->
  wrap (position n - wrap (pos + 1)) <> 0 ->
  Poll_loop (S fuel) since k rb timeout pos
  = if (0 <? timeout) && (timeout <=? since k)
    then Ret (None, Some ErrTimeout) rb
    else Poll_loop fuel since (S k) rb timeout (head rb).
Proof.
  intros Hd Hn Hp. simpl. rewrite Hn.
  destruct (Z.eqb_spec (disposed rb) 1); [done|].
  destruct (Z.eqb_spec (wrap (position n - wrap (pos + 1))) 0); [done|].
  destruct (Z.ltb_spec (wrap (position n - wrap (pos + 1))) 0) as [Hlt|]; [|done].
  pose proof (wrap_range (position n - wrap (pos + 1))). lia.
Qed.

(** ** Consequences of the invariant *)

Lemma Inv_Cap_range rb H q : Inv rb H q -> 0 < Cap rb <= 2 ^ 63.
Proof.
  intros [(k & Hk & ->) _ _ _ _ _ _ _]. split.
  - apply Z.pow_pos_nonneg; lia.
  - apply Z.pow_le_mono_r; lia.
Qed.

Lemma Inv_slot rb H q x : Inv rb H q -> slot rb (wrap x) = idx (Cap rb) x.
Proof.
  intros [(k & Hk & Ek) Hm _ _ _ _ _ _]. unfold slot, idx.
  by rewrite Hm, Ek, land_mask.
Qed.

Lemma Inv_Len rb H q : Inv rb H q -> Len rb = Z.of_nat (length q).
Proof.
  intros HI. pose proof (Inv_Cap_range _ _ _ HI).
  unfold Len. rewrite (inv_tail _ _ _ HI), (inv_head _ _ _ HI), wrap_sub.
  replace (H + Z.of_nat (length q) - H) with (Z.of_nat (length q)) by lia.
  apply wrap_small. pose proof (inv_len _ _ _ HI). lia.
Qed.

(** ** A fresh buffer satisfies the invariant *)

Lemma Inv_fresh size :
  0 < size <= 2 ^ 63 -> Inv (fresh (V:=V) size) 0 [].
Proof.
  intros Hs. pose proof (Cap_fresh (V:=V) size) as Ec.
  destruct (roundUp_least_pow2 size Hs) as [(_ & Hge & _) Hle].
  split; rewrite ?Ec.
  - exists (Z.log2_up size). rewrite roundUp_log2_up by done.
    pose proof (Z.log2_up_nonneg size). split; [|done].
    split; [done|]. apply Z.log2_up_le_pow2; lia.
  - simpl. apply wrap_small. lia.
  - done.
  - done.
  - done.
  - simpl. lia.
  - intros j v Hj. by rewrite lookup_nil in Hj.
  - intros j _ Hj. simpl. rewrite Z.add_0_l, idx_small by done.
    rewrite init_nodes_lookup by lia. by rewrite wrap_small by lia.
Qed.

(** ** Put and Offer with room left *)

Lemma put_ok fuel rb H q item offer :
  Inv rb H q -> disposed rb <> 1 -> Z.of_nat (length q) < Cap rb ->
  exists rb', put (S fuel) rb item offer = Ret (true, None) rb' /\
    Inv rb' H (q ++ [item]) /\ disposed rb' = disposed rb.
Proof.
  intros HI Hd Hlt.
  pose proof (Inv_Cap_range _ _ _ HI) as Hc.
  pose proof (inv_free _ _ _ HI (length q) (le_n _) Hlt) as Hn.
  assert (slot rb (tail rb) = idx (Cap rb) (H + Z.of_nat (length q))) as Es.
  { rewrite (inv_tail _ _ _ HI). by apply (Inv_slot _ H q). }
  exists (publish (set_tail rb (wrap (tail rb + 1))) (slot rb (tail rb)) item (tail rb)).
  split; [|split; [|reflexivity]].
  { unfold put. apply put_loop_claim
      with (n := mkNode (wrap (H + Z.of_nat (length q))) None); [done|by rewrite Es|].
    simpl. by rewrite (inv_tail _ _ _ HI), wrap_sub, Z.sub_diag. }
  rewrite Es. destruct HI as [Hcap Hm HH Hh Ht Hl Hu Hf].
  set (i := idx (Cap rb) (H + Z.of_nat (length q))) in *.
  set (rb' := publish _ _ _ _).
  assert (Cap rb' = Cap rb) as Ec
    by (unfold Cap, rb'; simpl; by rewrite length_insert).
  assert (Z.of_nat (length (q ++ [item])) = Z.of_nat (length q) + 1) as El
    by (rewrite length_app; simpl; lia).
  split; rewrite ?Ec, ?El; try done.
  - simpl. rewrite Ht, wrap_add_l. f_equal. lia.
  - lia.
  - intros j v Hj. simpl. destruct (decide (j = length q)) as [->|Hne].
    + rewrite lookup_app_r, Nat.sub_diag in Hj by done. injection Hj as <-.
      fold i. rewrite list_lookup_insert_eq by (by eapply lookup_lt_Some).
      by rewrite Ht, wrap_add_l.
    + pose proof (lookup_lt_Some _ _ _ Hj) as Hlen.
      rewrite length_app in Hlen. simpl in Hlen.
      rewrite lookup_app_l in Hj by lia.
      rewrite list_lookup_insert_ne; [by apply Hu|].
      intros E. apply idx_inj in E; lia.
  - intros j Hj1 Hj2. rewrite length_app in Hj1. simpl in Hj1. simpl.
    rewrite list_lookup_insert_ne; [apply Hf; lia|].
    intros E. apply idx_inj in E; lia.
Qed.

(** ** Get and Poll with an item waiting *)

Lemma get_ok fuel since rb H v q timeout :
  Inv rb H (v :: q) -> disposed rb <> 1 ->
  exists rb', Poll (S fuel) since rb timeout = Ret (v, None) rb' /\
    Inv rb' (H + 1) q /\ disposed rb' = disposed rb.
Proof.
  intros HI Hd.
  pose proof (Inv_Cap_range _ _ _ HI) as Hc.
  pose proof (inv_used _ _ _ HI 0%nat v eq_refl) as Hn.
  simpl in Hn. rewrite Z.add_0_r in Hn.
  assert (slot rb (head rb) = idx (Cap rb) H) as Es.
  { rewrite (inv_head _ _ _ HI). by apply (Inv_slot _ H (v :: q)). }
  exists (release (set_head rb (wrap (head rb + 1))) (slot rb (head rb)) (head rb)).
  split; [|split; [|reflexivity]].
  { unfold Poll. apply (Poll_loop_claim _ _ _ _ _ (mkNode (wrap (H + 1)) v));
      [done|by rewrite Es|].
    simpl. by rewrite (inv_head _ _ _ HI), wrap_add_l, wrap_sub, Z.sub_diag. }
  rewrite Es. destruct HI as [Hcap Hm HH Hh Ht Hl Hu Hf].
  set (rb' := release _ _ _).
  assert (Cap rb' = Cap rb) as Ec
    by (unfold Cap, rb'; simpl; by rewrite length_insert).
  assert (Z.of_nat (length (v :: q)) = Z.of_nat (length q) + 1) as El
    by (simpl; lia).
  rewrite El in Hl, Ht.
  assert (idx (Cap rb) H = idx (Cap rb) (H + 0)) as E0 by (by rewrite Z.add_0_r).
  split; rewrite ?Ec; try done.
  - lia.
  - simpl. by rewrite Hh, wrap_add_l.
  - simpl. rewrite Ht. f_equal. lia.
  - lia.
  - intros j v' Hj. simpl. pose proof (lookup_lt_Some _ _ _ Hj) as Hlen.
    replace (H + 1 + Z.of_nat j) with (H + Z.of_nat (S j)) by lia.
    rewrite list_lookup_insert_ne; [by apply Hu|].
    rewrite E0. intros E. apply idx_inj in E; lia.
  - intros j Hj1 Hj2. simpl.
    destruct (Z.eq_dec (Z.of_nat j + 1) (Cap rb)) as [Hlast|Hmid].
    + replace (H + 1 + Z.of_nat j) with (H + Cap rb) by lia.
      rewrite idx_add_cap.
      rewrite list_lookup_insert_eq by (by eapply lookup_lt_Some).
      rewrite Hh, Hm, wrap_add_l, <- Z.add_assoc, wrap_add_l.
      do 3 f_equal. lia.
    + replace (H + 1 + Z.of_nat j) with (H + Z.of_nat (S j)) by lia.
      rewrite list_lookup_insert_ne;
        [apply Hf; simpl; lia|].
      rewrite E0. intros E. apply idx_inj in E; lia.
Qed.

(** ** A full buffer of capacity at least 2 *)

Lemma put_full rb H q item :
  Inv rb H q -> disposed rb <> 1 ->
  Z.of_nat (length q) = Cap rb -> 2 <= Cap rb ->
  (forall fuel, put (S fuel) rb item true = Ret (false, None) rb) /\
  (forall fuel, put fuel rb item false = Spin).
Proof.
  intros HI Hd Hfull H2.
  pose proof (Inv_Cap_range _ _ _ HI) as Hc.
  destruct q as [|v q]; [simpl in Hfull; lia|].
  pose proof (inv_used _ _ _ HI 0%nat v eq_refl) as Hn.
  simpl in Hn. rewrite Z.add_0_r in Hn.
  assert (slot rb (tail rb) = idx (Cap rb) H) as Es.
  { rewrite (inv_tail _ _ _ HI), (Inv_slot _ H (v :: q)) by done.
    rewrite Hfull. apply idx_add_cap. }
  rewrite <- Es in Hn.
  assert (wrap (position (mkNode (wrap (H + 1)) v) - tail rb) <> 0) as Hp.
  { simpl. rewrite (inv_tail _ _ _ HI), wrap_sub, Hfull.
    replace (H + 1 - (H + Cap rb)) with (1 - Cap rb) by lia.
    unfold wrap. intros E.
    pose proof (Z.div_mod (1 - Cap rb) (2 ^ 64) ltac:(lia)) as D.
    rewrite E in D. lia. }
  split.
  - intros fuel. unfold put. by rewrite (put_loop_busy _ _ _ _ _ _ Hd Hn Hp).
  - intros fuel. unfold put. induction fuel as [|fuel IH]; [done|].
    by rewrite (put_loop_busy _ _ _ _ _ _ Hd Hn Hp).
Qed.

(** ** An empty buffer *)

Lemma Poll_loop_empty fuel since k rb H timeout :
  Inv rb H [] -> disposed rb <> 1 ->
  Poll_loop (S fuel) since k rb timeout (head rb)
  = if (0 <? timeout) && (timeout <=? since k)
    then Ret (None, Some ErrTimeout) rb
    else Poll_loop fuel since (S k) rb timeout (head rb).
Proof.
  intros HI Hd.
  pose proof (Inv_Cap_range _ _ _ HI) as Hc.
  pose proof (inv_free _ _ _ HI 0%nat (le_n _) ltac:(lia)) as Hn.
  simpl in Hn. rewrite Z.add_0_r in Hn.
  assert (slot rb (head rb) = idx (Cap rb) H) as Es.
  { rewrite (inv_head _ _ _ HI). by apply (Inv_slot _ H []). }
  rewrite <- Es in Hn.
  apply (Poll_loop_busy _ _ _ _ _ _ _ Hd Hn).
  simpl. rewrite (inv_head _ _ _ HI), wrap_add_l, wrap_sub.
  replace (H - (H + 1)) with (-1) by lia. done.
Qed.

Lemma Get_empty_blocks fuel since rb H :
  Inv rb H [] -> disposed rb <> 1 -> Get fuel since rb = Spin.
Proof.
  intros HI Hd. unfold Get, Poll. generalize 0%nat.
  induction fuel as [|fuel IH]; intros k; [done|].
  rewrite (Poll_loop_empty _ _ _ _ H) by done. simpl. apply IH.
Qed.

(** ** Calls preserve the invariant when the capacity is at least 2 *)

Lemma Inv_Dispose rb H q : Inv rb H q -> Inv (Dispose rb) H q.
Proof.
  intros HI. unfold Dispose. destruct (disposed rb =? 0); [|done].
  destruct HI. by split.
Qed.

Lemma put_Inv fuel rb H q item offer r rb' :
  Inv rb H q -> 2 <= Cap rb ->
  put fuel rb item offer = Ret r rb' ->
  exists q', Inv rb' H q'.
Proof.
  intros HI H2 Hr. destruct fuel as [|fuel]; [discriminate|].
  destruct (Z.eq_dec (disposed rb) 1) as [Hd|Hd].
  { rewrite put_disposed in Hr by done. injection Hr as _ <-. by exists q. }
  destruct (Z_lt_ge_dec (Z.of_nat (length q)) (Cap rb)) as [Hlt|Hge].
  - destruct (put_ok fuel rb H q item offer HI Hd Hlt) as (rb1 & E & HI1 & _).
    rewrite E in Hr. injection Hr as _ <-. by exists (q ++ [item]).
  - pose proof (inv_len _ _ _ HI) as Hl.
    destruct (put_full rb H q item HI Hd ltac:(lia) H2) as [Ho Hp].
    destruct offer.
    + rewrite Ho in Hr. injection Hr as _ <-. by exists q.
    + by rewrite Hp in Hr.
Qed.

Lemma Poll_loop_empty_ret fuel since k rb H timeout r rb' :
  Inv rb H [] -> disposed rb <> 1 ->
  Poll_loop fuel since k rb timeout (head rb) = Ret r rb' -> rb' = rb.
Proof.
  intros HI Hd. revert k. induction fuel as [|fuel IH]; intros k; [discriminate|].
  rewrite (Poll_loop_empty _ _ _ _ H) by done.
  destruct ((0 <? timeout) && (timeout <=? since k)); [|apply IH].
  by intros [= _ <-].
Qed.

Lemma Poll_Inv fuel since rb H q timeout r rb' :
  Inv rb H q ->
  Poll fuel since rb timeout = Ret r rb' ->
  exists H' q', Inv rb' H' q'.
Proof.
  intros HI Hr. destruct fuel as [|fuel]; [discriminate|].
  destruct (Z.eq_dec (disposed rb) 1) as [Hd|Hd].
  { rewrite Poll_disposed in Hr by done. injection Hr as _ <-. by exists H, q. }
  destruct q as [|v q].
  - apply (Poll_loop_empty_ret _ _ _ _ H) in Hr as ->; [|done..]. by exists H, [].
  - destruct (get_ok fuel since rb H v q timeout HI Hd) as (rb1 & E & HI1 & _).
    rewrite E in Hr. injection Hr as _ <-. by exists (H + 1), q.
Qed.

Lemma call_Inv fuel since (o : op V) rb rb' H q :
  Inv rb H q -> 2 <= Cap rb ->
  call fuel since o rb = Some rb' ->
  exists H' q', Inv rb' H' q'.
Proof.
  intros HI H2. destruct o as [item|item| |timeout|]; simpl.
  - destruct (Put fuel rb item) as [e rb1| |] eqn:E; simpl; try discriminate.
    intros [= ->]. apply Put_ret in E as [b E].
    destruct (put_Inv _ _ _ _ _ _ _ _ HI H2 E) as [q' HI']. by exists H, q'.
  - unfold Offer. destruct (put fuel rb item true) as [r rb1| |] eqn:E;
      simpl; try discriminate.
    intros [= ->].
    destruct (put_Inv _ _ _ _ _ _ _ _ HI H2 E) as [q' HI']. by exists H, q'.
  - unfold Get. destruct (Poll fuel since rb 0) as [r rb1| |] eqn:E;
      simpl; try discriminate.
    intros [= ->]. by apply (Poll_Inv _ _ _ _ _ _ _ _ HI E).
  - destruct (Poll fuel since rb timeout) as [r rb1| |] eqn:E;
      simpl; try discriminate.
    intros [= ->]. by apply (Poll_Inv _ _ _ _ _ _ _ _ HI E).
  - intros [= <-]. exists H, q. by apply Inv_Dispose.
Qed.

Lemma reachable_Inv size rb :
  2 <= size <= 2 ^ 63 -> reachable_fresh size rb -> exists H q, Inv rb H q.
Proof.
  intros Hs Hr. unfold reachable_fresh in Hr.
  induction Hr as [|rb rb' fuel since o Hr IH Hc].
  - exists 0, []. apply Inv_fresh. lia.
  - destruct IH as (H & q & HI).
    apply (call_Inv fuel since o rb rb' H q HI); [|done].
    rewrite (reachable_Cap size) by done.
    destruct (roundUp_least_pow2 size ltac:(lia)) as [(_ & Hge & _) _]. lia.
Qed.

Lemma reachable_Len_le_Cap_fresh size rb :
  2 <= size <= 2 ^ 63 -> reachable_fresh size rb ->
  Len rb <= Cap rb /\
  0 <= head rb < 2 ^ 64 /\ 0 <= tail rb < 2 ^ 64 /\
  (head rb <= tail rb <-> head rb + Len rb < 2 ^ 64).
Proof.
  intros Hs Hr. destruct (reachable_Inv size rb Hs Hr) as (H & q & HI).
  pose proof (Inv_Cap_range _ _ _ HI) as Hc.
  pose proof (inv_len _ _ _ HI) as Hl.
  rewrite (Inv_Len _ _ _ HI), (inv_head _ _ _ HI), (inv_tail _ _ _ HI).
  rewrite <- (wrap_add_l H).
  pose proof (wrap_range H) as Hh. set (h := wrap H) in *.
  set (l := Z.of_nat (length q)) in *.
  assert (0 <= l) by (unfold l; lia).
  split; [done|]. split; [done|]. split; [apply wrap_range|].
  destruct (Z_lt_ge_dec (h + l) (2 ^ 64)) as [Hlt|Hge].
  - rewrite wrap_small by lia. lia.
  - assert (wrap (h + l) = h + l - 2 ^ 64) as ->; [|lia].
    unfold wrap. rewrite <- (Z_mod_plus_full (h + l) (-1) (2 ^ 64)).
    apply Z.mod_small. lia.
Qed.

(** C8 (amended): in every state reachable from a freshly constructed
    buffer of capacity at least 2, Len(), which is tail - head modulo
    2^64, is at most Cap(); both counters stay in the uint64 range, and
    head <= tail holds exactly as long as tail has not wrapped around
    2^64 ahead of head. *)
Theorem reachable_Len_le_Cap limit size rb :
  2 <= size <= 2 ^ 63 -> reachable limit size rb ->
  Len rb <= Cap rb /\
  0 <= head rb < 2 ^ 64 /\ 0 <= tail rb < 2 ^ 64 /\
  (head rb <= tail rb <-> head rb + Len rb < 2 ^ 64).
Proof.
  intros Hs Hr%reachable_fresh_of. by apply (reachable_Len_le_Cap_fresh size).
Qed.

Lemma reachable_full_fresh size rb item :
  2 <= size <= 2 ^ 63 -> reachable_fresh size rb ->
  disposed rb <> 1 -> Len rb = Cap rb ->
  (forall fuel, Offer (S fuel) rb item = Ret (false, None) rb) /\
  (forall fuel, Put fuel rb item = Spin).
Proof.
  intros Hs Hr Hd Hfull. destruct (reachable_Inv size rb Hs Hr) as (H & q & HI).
  rewrite (Inv_Len _ _ _ HI) in Hfull.
  assert (2 <= Cap rb) as H2.
  { rewrite (reachable_Cap size) by done.
    destruct (roundUp_least_pow2 size ltac:(lia)) as [(_ & Hge & _) _]. lia. }
  destruct (put_full rb H q item HI Hd Hfull H2) as [Ho Hp].
  split; [done|]. intros fuel. unfold Put. by rewrite Hp.
Qed.

(** X12: with a capacity of at least 2, Offer on a full buffer that is
    not disposed returns "not accepted" with a nil error and changes
    nothing, and Put on it never returns on one thread. *)
Theorem reachable_full limit size rb item :
  2 <= size <= 2 ^ 63 -> reachable limit size rb ->
  disposed rb <> 1 -> Len rb = Cap rb ->
  (forall fuel, Offer (S fuel) rb item = Ret (false, None) rb) /\
  (forall fuel, Put fuel rb item = Spin).
Proof.
  intros Hs Hr%reachable_fresh_of. by apply (reachable_full_fresh size).
Qed.

(** ** The counters wrap *)

(** Putting one item and getting it back, over and over, reaches a
    drained buffer for every number [H] of items taken out so far. *)
Lemma reachable_drained size H :
  0 < size <= 2 ^ 63 -> 0 <= H ->
  exists rb, reachable_fresh size rb /\ Inv rb H [] /\ disposed rb = 0.
Proof.
  intros Hs. revert H. apply natlike_ind.
  - exists (fresh size). split; [apply reach_here|].
    split; [by apply Inv_fresh|done].
  - intros H HH (rb & Hr & HI & Hd).
    pose proof (Inv_Cap_range _ _ _ HI) as Hc.
    destruct (put_ok 0 rb H [] None false HI ltac:(lia) ltac:(simpl; lia))
      as (rb1 & E1 & HI1 & Hd1).
    destruct (get_ok 0 since0 rb1 H None [] 0 HI1 ltac:(lia))
      as (rb2 & E2 & HI2 & Hd2).
    exists rb2. split; [|split; [done|lia]].
    apply (reach_call _ rb1 rb2 1 since0 OpGet).
    + apply (reach_call _ rb rb1 1 since0 (OpPut None)); [done|].
      simpl. unfold Put. by rewrite E1.
    + simpl. unfold Get. by rewrite E2.
Qed.

(** After [2^64 - 1] such rounds one more Put wraps tail to 0 while head
    is [2^64 - 1]. *)
Lemma reachable_wrapped size :
  0 < size <= 2 ^ 63 ->
  exists rb, reachable_fresh size rb /\ head rb = 2 ^ 64 - 1 /\ tail rb = 0.
Proof.
  intros Hs.
  destruct (reachable_drained size (2 ^ 64 - 1) Hs ltac:(lia))
    as (rb & Hr & HI & Hd).
  pose proof (Inv_Cap_range _ _ _ HI) as Hc.
  destruct (put_ok 0 rb _ [] None false HI ltac:(lia) ltac:(simpl; lia))
    as (rb1 & E1 & HI1 & Hd1).
  exists rb1. split; [|split].
  - apply (reach_call _ rb rb1 1 since0 (OpPut None)); [done|].
    simpl. unfold Put. by rewrite E1.
  - by rewrite (inv_head _ _ _ HI1).
  - by rewrite (inv_tail _ _ _ HI1).
Qed.

(** ** N puts, then N gets *)

Lemma put_all_ok fuel rb H q (vs : list (option V)) :
  Inv rb H q -> disposed rb = 0 ->
  Z.of_nat (length q) + Z.of_nat (length vs) <= Cap rb ->
  exists rb', put_all (S fuel) rb vs = Some rb' /\
    Inv rb' H (q ++ vs) /\ disposed rb' = 0.
Proof.
  revert rb q. induction vs as [|v vs IH]; intros rb q HI Hd Hl.
  - exists rb. by rewrite app_nil_r.
  - simpl in Hl.
    destruct (put_ok fuel rb H q v false HI ltac:(lia) ltac:(lia))
      as (rb1 & E & HI1 & Hd1).
    destruct (IH rb1 (q ++ [v]) HI1 ltac:(lia)) as (rb2 & E2 & HI2 & Hd2).
    { rewrite length_app. simpl.
      replace (Cap rb1) with (Cap rb); [lia|].
      destruct HI as [(k & _ & Ek) Hm _ _ _ _ _ _].
      destruct HI1 as [(k1 & _ & Ek1) Hm1 _ _ _ _ _ _].
      apply put_loop_ret in E as [->|[t ->]]; [done|].
      unfold Cap. simpl. by rewrite length_insert. }
    exists rb2. split; [|split; [|done]].
    + change (put_all (S fuel) rb (v :: vs))
        with (match Put (S fuel) rb v with
              | Ret None rb' => put_all (S fuel) rb' vs
              | _ => None
              end).
      unfold Put. by rewrite E.
    + by rewrite <- app_assoc in HI2.
Qed.

Lemma get_all_ok fuel since rb H (vs q : list (option V)) :
  Inv rb H (vs ++ q) -> disposed rb = 0 ->
  exists rb', get_all (S fuel) since rb (length vs) = Some (vs, rb') /\
    Inv rb' (H + Z.of_nat (length vs)) q /\ disposed rb' = 0.
Proof.
  revert rb H. induction vs as [|v vs IH]; intros rb H HI Hd.
  - exists rb. simpl. by rewrite Z.add_0_r.
  - destruct (get_ok fuel since rb H v (vs ++ q) 0 HI ltac:(lia))
      as (rb1 & E & HI1 & Hd1).
    destruct (IH rb1 (H + 1) HI1 ltac:(lia)) as (rb2 & E2 & HI2 & Hd2).
    exists rb2. split; [|split; [|done]].
    + change (get_all (S fuel) since rb (length (v :: vs)))
        with (match Get (S fuel) since rb with
              | Ret (v, None) rb' =>
                match get_all (S fuel) since rb' (length vs) with
                | Some (vs, rb'') => Some (v :: vs, rb'')
                | None => None
                end
              | _ => None
              end).
      unfold Get. by rewrite E, E2.
    + replace (H + Z.of_nat (length (v :: vs)))
        with (H + 1 + Z.of_nat (length vs)) by (simpl; lia).
      done.
Qed.

Lemma put_then_get_is_FIFO_fresh size (vs : list (option V)) fuel since :
  0 <= size < 2 ^ 64 ->
  Z.of_nat (length vs) <= Cap (fresh (V:=V) size) ->
  exists rb1 rb2,
    put_all (S fuel) (fresh size) vs = Some rb1 /\
    get_all (S fuel) since rb1 (length vs) = Some (vs, rb2).
Proof.
  intros Hs Hl.
  destruct (Z_le_gt_dec size 0) as [H0|Hpos];
    [|destruct (Z_le_gt_dec size (2 ^ 63)) as [Hle|Hgt]].
  - rewrite Cap_fresh, roundUp_wraps in Hl by lia.
    destruct vs; [|simpl in Hl; lia]. by eexists _, _.
  - pose proof (Inv_fresh size ltac:(lia)) as HI.
    destruct (put_all_ok fuel _ 0 [] vs HI eq_refl ltac:(simpl; lia))
      as (rb1 & E1 & HI1 & Hd1).
    simpl in HI1. rewrite <- (app_nil_r vs) in HI1.
    destruct (get_all_ok fuel since rb1 0 vs [] HI1 Hd1) as (rb2 & E2 & _).
    by exists rb1, rb2.
  - rewrite Cap_fresh, roundUp_wraps in Hl by lia.
    destruct vs; [|simpl in Hl; lia]. by eexists _, _.
Qed.

(** C6: on a fresh buffer, N calls of Put followed by N calls of Get,
    with N at most the capacity, all return a nil error, and the Gets
    return the values in the order in which they were put. *)
Theorem put_then_get_is_FIFO limit size rb0 (vs : list (option V)) fuel since :
  0 <= size < 2 ^ 64 ->
  NewRingBuffer limit size = Some rb0 ->
  Z.of_nat (length vs) <= Cap rb0 ->
  exists rb1 rb2,
    put_all (S fuel) rb0 vs = Some rb1 /\
    get_all (S fuel) since rb1 (length vs) = Some (vs, rb2).
Proof.
  intros Hs [_ ->]%NewRingBuffer_Some. by apply put_then_get_is_FIFO_fresh.
Qed.

End Invariant.

Section Edge.

Context {V : Type}.
Implicit Types (rb : RingBuffer V) (item : option V).

(** ** The explicit panics *)

(** The differences [pos - tail] and [seq - (pos + 1)] are uint64 values,
    so the cases [diff < 0] and [dif < 0] are never taken. *)
Lemma compromised_panics_unreachable fuel since k rb item offer timeout c :
  put_loop fuel rb item offer c <> Panic CompromisedPut /\
  Poll_loop fuel since k rb timeout c <> Panic CompromisedGet.
Proof.
  split.
  - revert c. induction fuel as [|fuel IH]; intros c; [done|]. simpl.
    destruct (disposed rb =? 1); [done|].
    destruct (nodes rb !! slot rb c) as [n|]; [|done].
    destruct (wrap (position n - c) =? 0).
    + destruct (tail rb =? c); [done|]. destruct offer; [done|apply IH].
    + destruct (Z.ltb_spec (wrap (position n - c)) 0) as [Hlt|_].
      * pose proof (wrap_range (position n - c)). lia.
      * destruct offer; [done|apply IH].
  - revert k c. induction fuel as [|fuel IH]; intros k c; [done|]. simpl.
    destruct (disposed rb =? 1); [done|].
    destruct (nodes rb !! slot rb c) as [n|]; [|done].
    destruct (wrap (position n - wrap (c + 1)) =? 0).
    + destruct (head rb =? c); [done|].
      destruct ((0 <? timeout) && (timeout <=? since k)); [done|apply IH].
    + destruct (Z.ltb_spec (wrap (position n - wrap (c + 1))) 0) as [Hlt|_].
      * pose proof (wrap_range (position n - wrap (c + 1))). lia.
      * destruct ((0 <? timeout) && (timeout <=? since k)); [done|apply IH].
Qed.

(** C2 (amended): the two panic statements are never reached, because
    the differences [pos - tail] and [seq - (pos + 1)] are uint64 values.
    When the slot sequence loaded by put is strictly less than the local
    tail, the iteration reloads tail; Offer then returns "not accepted"
    with a nil error and Put goes round the loop again.  When the slot
    sequence loaded by Poll is strictly less than the local head + 1 (as
    the code computes it), the iteration reloads head; Poll then returns
    the Timeout failure if a positive timeout has elapsed and otherwise,
    like Get, goes round the loop again. *)
Theorem sequence_behind_retries rb fuel since k item offer timeout c n :
  disposed rb <> 1 ->
  nodes rb !! slot rb c = Some n ->
  0 <= position n ->
  (position n < c < 2 ^ 64 ->
     put_loop (S fuel) rb item offer c
     = if offer then Ret (false, None) rb
       else put_loop fuel rb item offer (tail rb)) /\
  (position n < wrap (c + 1) ->
     Poll_loop (S fuel) since k rb timeout c
     = if (0 <? timeout) && (timeout <=? since k)
       then Ret (None, Some ErrTimeout) rb
       else Poll_loop fuel since (S k) rb timeout (head rb)) /\
  (forall fuel',
     put_loop fuel' rb item offer c <> Panic CompromisedPut /\
     Poll_loop fuel' since k rb timeout c <> Panic CompromisedGet).
Proof.
  intros Hd Hn H0. split; [|split].
  - intros Hlt. apply (put_loop_busy _ _ _ _ _ _ Hd Hn).
    unfold wrap. rewrite <- (Z_mod_plus_full _ 1 (2 ^ 64)).
    rewrite Z.mod_small by lia. lia.
  - intros Hlt. apply (Poll_loop_busy _ _ _ _ _ _ _ Hd Hn).
    pose proof (wrap_range (c + 1)) as Hw. set (w := wrap (c + 1)) in *.
    unfold wrap. rewrite <- (Z_mod_plus_full _ 1 (2 ^ 64)).
    rewrite Z.mod_small by lia. lia.
  - intros fuel'. apply compromised_panics_unreachable.
Qed.

(** ** Dispose with items still queued *)

Lemma fresh_roundUp size size' :
  roundUp size = roundUp size' ->
  fresh (V:=V) size = fresh size'.
Proof. unfold fresh. by intros ->. Qed.

Lemma Get_after_Dispose_returns_ErrDisposed_fresh size (a b c d : option V) fuel since :
  Cap (fresh (V:=V) size) = 4 ->
  exists rb rb_drained,
    put_all (S fuel) (fresh size) [a; b; c; d] = Some rb /\
    nodes rb = [mkNode 1 a; mkNode 2 b; mkNode 3 c; mkNode 4 d] /\
    get_all (S fuel) since rb 4 = Some ([a; b; c; d], rb_drained) /\
    nodes (Dispose rb) = nodes rb /\
    Get (S fuel) since (Dispose rb) = Ret (None, Some ErrDisposed) (Dispose rb).
Proof.
  rewrite Cap_fresh. intros E.
  rewrite (fresh_roundUp size 4) by (by rewrite E).
  exists (mkRingBuffer 4 0 3 0 [mkNode 1 a; mkNode 2 b; mkNode 3 c; mkNode 4 d]).
  exists (mkRingBuffer 4 4 3 0 [mkNode 4 None; mkNode 5 None; mkNode 6 None; mkNode 7 None]).
  repeat split; vm_compute; reflexivity.
Qed.

(** C1 (amended): on a buffer of capacity 4, four Puts of a, b, c, d
    succeed and leave the four values in slots 0 to 3; Gets issued then
    would return a, b, c, d in order; but once Dispose has been called,
    Get returns the Disposed failure at once and changes nothing, so every
    later Get does the same: the values stay in their slots, unread. *)
Theorem Get_after_Dispose_returns_ErrDisposed limit size rb0
    (a b c d : option V) fuel since :
  NewRingBuffer limit size = Some rb0 ->
  Cap rb0 = 4 ->
  exists rb rb_drained,
    put_all (S fuel) rb0 [a; b; c; d] = Some rb /\
    nodes rb = [mkNode 1 a; mkNode 2 b; mkNode 3 c; mkNode 4 d] /\
    get_all (S fuel) since rb 4 = Some ([a; b; c; d], rb_drained) /\
    nodes (Dispose rb) = nodes rb /\
    Get (S fuel) since (Dispose rb) = Ret (None, Some ErrDisposed) (Dispose rb).
Proof.
  intros [_ ->]%NewRingBuffer_Some. by apply Get_after_Dispose_returns_ErrDisposed_fresh.
Qed.

(** ** Requested size 0 *)

Lemma put_no_slots fuel rb item offer :
  nodes rb = [] -> disposed rb <> 1 ->
  put (S fuel) rb item offer = Panic IndexOutOfRange.
Proof.
  intros Hn Hd. unfold put. simpl. rewrite Hn, lookup_nil.
  by destruct (Z.eqb_spec (disposed rb) 1).
Qed.

Lemma Poll_no_slots fuel since rb timeout :
  nodes rb = [] -> disposed rb <> 1 ->
  Poll (S fuel) since rb timeout = Panic IndexOutOfRange.
Proof.
  intros Hn Hd. unfold Poll. simpl. rewrite Hn, lookup_nil.
  by destruct (Z.eqb_spec (disposed rb) 1).
Qed.

Lemma zero_size_buffer_faults_until_disposed_fresh rb fuel since item timeout :
  reachable_fresh 0 rb ->
  Cap (fresh (V:=V) 0) = 0 /\
  mask (fresh (V:=V) 0) = 2 ^ 64 - 1 /\
  Cap rb = 0 /\
  ((disposed rb = 0 /\
    Put (S fuel) rb item = Panic IndexOutOfRange /\
    Offer (S fuel) rb item = Panic IndexOutOfRange /\
    Get (S fuel) since rb = Panic IndexOutOfRange /\
    Poll (S fuel) since rb timeout = Panic IndexOutOfRange) \/
   (disposed rb = 1 /\
    Put (S fuel) rb item = Ret (Some ErrDisposed) rb /\
    Offer (S fuel) rb item = Ret (false, Some ErrDisposed) rb /\
    Get (S fuel) since rb = Ret (None, Some ErrDisposed) rb /\
    Poll (S fuel) since rb timeout = Ret (None, Some ErrDisposed) rb)).
Proof.
  intros Hr. pose proof (reachable_Cap 0 rb Hr) as Ec.
  apply reachable_from_frame in Hr as (_ & _ & Hd).
  change (roundUp 0) with 0 in Ec.
  split; [reflexivity|]. split; [reflexivity|]. split; [done|].
  assert (nodes rb = []) as Hn.
  { unfold Cap in Ec. destruct (nodes rb); [done|simpl in Ec; lia]. }
  change (disposed (fresh 0)) with 0 in Hd.
  destruct Hd as [Hd|Hd]; [left|right]; (split; [done|]).
  - unfold Put, Offer, Get.
    rewrite !put_no_slots, !Poll_no_slots by (done || lia). done.
  - unfold Put, Offer, Get.
    rewrite !put_disposed, !Poll_disposed by done. done.
Qed.

(** C10 (amended): a buffer constructed with requested size 0 has no
    slots (Cap() = 0) and mask 2^64 - 1.  In every state it reaches,
    either it is not disposed and each of Put, Offer, Get and Poll faults
    on the slice index, or it is disposed and each of them returns the
    Disposed failure, the check of the flag coming before the index. *)
Theorem zero_size_buffer_faults_until_disposed limit rb0 rb fuel since item timeout :
  NewRingBuffer limit 0 = Some rb0 ->
  reachable_from rb0 rb ->
  Cap rb0 = 0 /\
  mask rb0 = 2 ^ 64 - 1 /\
  Cap rb = 0 /\
  ((disposed rb = 0 /\
    Put (S fuel) rb item = Panic IndexOutOfRange /\
    Offer (S fuel) rb item = Panic IndexOutOfRange /\
    Get (S fuel) since rb = Panic IndexOutOfRange /\
    Poll (S fuel) since rb timeout = Panic IndexOutOfRange) \/
   (disposed rb = 1 /\
    Put (S fuel) rb item = Ret (Some ErrDisposed) rb /\
    Offer (S fuel) rb item = Ret (false, Some ErrDisposed) rb /\
    Get (S fuel) since rb = Ret (None, Some ErrDisposed) rb /\
    Poll (S fuel) since rb timeout = Ret (None, Some ErrDisposed) rb)).
Proof.
  intros [_ ->]%NewRingBuffer_Some Hr.
  by apply zero_size_buffer_faults_until_disposed_fresh.
Qed.

End Edge.

(** * Further properties of the calls *)

Section Results.

Context {V : Type}.
Implicit Types (rb : RingBuffer V) (item : option V) (q : list (option V)).

(** ** What a returning call did to the queue *)

Lemma put_result fuel rb H q item offer b e rb' :
  Inv rb H q -> 2 <= Cap rb ->
  put fuel rb item offer = Ret (b, e) rb' ->
  (b = true /\ e = None /\ Inv rb' H (q ++ [item])) \/
  (b = false /\ rb' = rb /\ (e = None -> offer = true)).
Proof.
  intros HI H2 Hr. destruct fuel as [|fuel]; [discriminate|].
  destruct (Z.eq_dec (disposed rb) 1) as [Hd|Hd].
  { rewrite put_disposed in Hr by done. injection Hr as <- <- <-.
    right. by repeat split. }
  destruct (Z_lt_ge_dec (Z.of_nat (length q)) (Cap rb)) as [Hlt|Hge].
  - destruct (put_ok fuel rb H q item offer HI Hd Hlt) as (rb1 & E & HI1 & _).
    rewrite E in Hr. injection Hr as <- <- <-. by left.
  - pose proof (inv_len _ _ _ HI) as Hl.
    destruct (put_full rb H q item HI Hd ltac:(lia) H2) as [Ho Hp].
    destruct offer.
    + rewrite Ho in Hr. injection Hr as <- <- <-. right. by repeat split.
    + by rewrite Hp in Hr.
Qed.

Lemma Poll_loop_empty_result fuel since k rb H timeout r rb' :
  Inv rb H [] -> disposed rb <> 1 ->
  Poll_loop fuel since k rb timeout (head rb) = Ret r rb' ->
  r = (None, Some ErrTimeout) /\ rb' = rb.
Proof.
  intros HI Hd. revert k. induction fuel as [|fuel IH]; intros k; [discriminate|].
  rewrite (Poll_loop_empty _ _ _ _ H) by done.
  destruct ((0 <? timeout) && (timeout <=? since k)); [|apply IH].
  by intros [= <- <-].
Qed.

Lemma Poll_result fuel since rb H q timeout v e rb' :
  Inv rb H q ->
  Poll fuel since rb timeout = Ret (v, e) rb' ->
  (e = None /\ exists q', q = v :: q' /\ Inv rb' (H + 1) q') \/
  (e <> None /\ v = None /\ rb' = rb).
Proof.
  intros HI Hr. destruct fuel as [|fuel]; [discriminate|].
  destruct (Z.eq_dec (disposed rb) 1) as [Hd|Hd].
  { rewrite Poll_disposed in Hr by done. injection Hr as <- <- <-.
    right. by repeat split. }
  destruct q as [|v0 q].
  - apply (Poll_loop_empty_result _ _ _ _ H) in Hr as [[= -> ->] ->]; [|done..].
    right. by repeat split.
  - destruct (get_ok fuel since rb H v0 q timeout HI Hd) as (rb1 & E & HI1 & _).
    rewrite E in Hr. injection Hr as <- <- <-. left. split; [done|]. by exists q.
Qed.

(** ** Runs *)

Lemma run_step_call fuel since (o : op V) rb rb1 p g :
  run_step (fuel, since, o) rb = Some (rb1, p, g) ->
  call fuel since o rb = Some rb1.
Proof.
  destruct o as [item|item| |timeout|]; simpl.
  - destruct (Put fuel rb item) as [[e|] rb'| |]; simpl; congruence.
  - destruct (Offer fuel rb item) as [[[|] e] rb'| |]; simpl; congruence.
  - destruct (Get fuel since rb) as [[v [e|]] rb'| |]; simpl; congruence.
  - destruct (Poll fuel since rb timeout) as [[v [e|]] rb'| |]; simpl; congruence.
  - congruence.
Qed.

Lemma run_reachable_from steps rb rb' ps gs :
  run steps rb = Some (rb', ps, gs) -> reachable_from rb rb'.
Proof.
  assert (Htrans : forall rb1 rb2, reachable_from rb1 rb2 ->
            forall rb0, reachable_from rb0 rb1 -> reachable_from rb0 rb2).
  { induction 1 as [|x y fuel since o _ IH Hc]; intros rb0 H0; [done|].
    by eapply reach_call; [apply IH|]. }
  revert rb rb' ps gs. induction steps as [|[[fuel since] o] steps IH];
    intros rb rb' ps gs; cbn [run].
  - intros [= <- _ _]. apply reach_here.
  - destruct (run_step (fuel, since, o) rb) as [[[rb1 p1] g1]|] eqn:E1;
      [|discriminate].
    destruct (run steps rb1) as [[[rb2 p2] g2]|] eqn:E2; [|discriminate].
    intros [= <- _ _]. apply run_step_call in E1. apply IH in E2.
    apply (Htrans rb1 rb2 E2). by eapply reach_call; [apply reach_here|].
Qed.

Lemma run_step_Inv fuel since (o : op V) rb H q rb1 p g :
  Inv rb H q -> 2 <= Cap rb ->
  run_step (fuel, since, o) rb = Some (rb1, p, g) ->
  exists q1, q ++ p = g ++ q1 /\ Inv rb1 (H + Z.of_nat (length g)) q1.
Proof.
  intros HI H2.
  assert (Hsame : exists q1, q ++ [] = [] ++ q1 /\ Inv rb (H + Z.of_nat 0) q1).
  { exists q. by rewrite app_nil_r, Z.add_0_r. }
  destruct o as [item|item| |timeout|]; simpl.
  - destruct (Put fuel rb item) as [e rb'| |] eqn:E; try discriminate.
    apply Put_ret in E as [b E].
    destruct (put_result _ _ _ _ _ _ _ _ _ HI H2 E) as [(-> & -> & HI')|(-> & -> & He)].
    + intros [= <- <- <-]. exists (q ++ [item]). by rewrite Z.add_0_r.
    + destruct e; [|by specialize (He eq_refl)]. by intros [= <- <- <-].
  - unfold Offer. destruct (put fuel rb item true) as [[b e] rb'| |] eqn:E;
      try discriminate.
    destruct (put_result _ _ _ _ _ _ _ _ _ HI H2 E) as [(-> & -> & HI')|(-> & -> & He)].
    + intros [= <- <- <-]. exists (q ++ [item]). by rewrite Z.add_0_r.
    + by intros [= <- <- <-].
  - unfold Get. destruct (Poll fuel since rb 0) as [[v e] rb'| |] eqn:E;
      try discriminate.
    destruct (Poll_result _ _ _ _ _ _ _ _ _ HI E)
      as [(-> & q' & -> & HI')|(He & -> & ->)].
    + intros [= <- <- <-]. exists q'. by rewrite app_nil_r.
    + destruct e; [|done]. by intros [= <- <- <-].
  - destruct (Poll fuel since rb timeout) as [[v e] rb'| |] eqn:E;
      try discriminate.
    destruct (Poll_result _ _ _ _ _ _ _ _ _ HI E)
      as [(-> & q' & -> & HI')|(He & -> & ->)].
    + intros [= <- <- <-]. exists q'. by rewrite app_nil_r.
    + destruct e; [|done]. by intros [= <- <- <-].
  - intros [= <- <- <-]. exists q. rewrite app_nil_r, Z.add_0_r.
    split; [done|]. by apply Inv_Dispose.
Qed.

Lemma run_Inv steps rb H q rb' ps gs :
  Inv rb H q -> 2 <= Cap rb ->
  run steps rb = Some (rb', ps, gs) ->
  exists q', q ++ ps = gs ++ q' /\ Inv rb' (H + Z.of_nat (length gs)) q'.
Proof.
  revert rb H q rb' ps gs. induction steps as [|[[fuel since] o] steps IH];
    intros rb H q rb' ps gs HI H2; cbn [run].
  - intros [= <- <- <-]. exists q. by rewrite app_nil_r, Z.add_0_r.
  - destruct (run_step (fuel, since, o) rb) as [[[rb1 p1] g1]|] eqn:E1;
      [|discriminate].
    destruct (run steps rb1) as [[[rb2 p2] g2]|] eqn:E2; [|discriminate].
    intros [= <- <- <-].
    destruct (run_step_Inv _ _ _ _ _ _ _ _ _ HI H2 E1) as (q1 & Eq1 & HI1).
    apply run_step_call, call_frame in E1 as (_ & Ec & _).
    destruct (IH _ _ _ _ _ _ HI1 ltac:(lia) E2) as (q2 & Eq2 & HI2).
    exists q2. split.
    + rewrite app_assoc, Eq1, <- !app_assoc. by f_equal.
    + rewrite length_app, Nat2Z.inj_add, Z.add_assoc. done.
Qed.

Lemma run_is_FIFO_fresh size (steps : list (step V)) rb ps gs :
  2 <= size <= 2 ^ 63 ->
  run steps (fresh size) = Some (rb, ps, gs) ->
  exists q,
    ps = gs ++ q /\
    Len rb = Z.of_nat (length q) /\
    Len rb <= Cap rb /\
    (disposed rb = 0 -> forall fuel since,
       exists rb', get_all (S fuel) since rb (length q) = Some (q, rb')).
Proof.
  intros Hs Hr.
  pose proof (Inv_fresh (V:=V) size ltac:(lia)) as HI.
  assert (2 <= Cap (fresh (V:=V) size)) as H2.
  { rewrite Cap_fresh.
    destruct (roundUp_least_pow2 size ltac:(lia)) as [(_ & Hge & _) _]. lia. }
  destruct (run_Inv _ _ _ _ _ _ _ HI H2 Hr) as (q & Eq & HI').
  exists q. split; [done|]. rewrite (Inv_Len _ _ _ HI').
  split; [done|]. split; [apply (inv_len _ _ _ HI')|].
  intros Hd fuel since. rewrite <- (app_nil_r q) in HI'.
  destruct (get_all_ok fuel since rb _ q [] HI' Hd) as (rb2 & E & _).
  by exists rb2.
Qed.

(** X1: whatever calls are made on one thread on a fresh buffer of
    capacity at least 2, the values handed out by Get and Poll are, in
    order, the first of the items stored by Put and Offer: nothing is
    lost, duplicated or reordered.  Len() counts the stored items not yet
    handed out, and, unless the buffer is disposed, that many Gets hand
    out exactly those, in order. *)
Theorem run_is_FIFO limit size rb0 (steps : list (step V)) rb ps gs :
  2 <= size <= 2 ^ 63 ->
  NewRingBuffer limit size = Some rb0 ->
  run steps rb0 = Some (rb, ps, gs) ->
  exists q,
    ps = gs ++ q /\
    Len rb = Z.of_nat (length q) /\
    Len rb <= Cap rb /\
    (disposed rb = 0 -> forall fuel since,
       exists rb', get_all (S fuel) since rb (length q) = Some (q, rb')).
Proof.
  intros Hs [_ ->]%NewRingBuffer_Some. by apply run_is_FIFO_fresh.
Qed.

End Results.

Section Safety.

Context {V : Type}.
Implicit Types (rb : RingBuffer V) (item : option V).

(** ** Slot indices and faults *)

Lemma reachable_mask size rb :
  0 < size <= 2 ^ 63 -> reachable_fresh size rb ->
  exists k, 0 <= k <= 63 /\ Cap rb = 2 ^ k /\ mask rb = 2 ^ k - 1.
Proof.
  intros Hs (Em & Ec & _)%reachable_from_frame.
  pose proof (Inv_fresh (V:=V) size Hs) as [(k & Hk & Ek) Hm _ _ _ _ _ _].
  exists k. rewrite Em, Ec, Hm, Ek. done.
Qed.

Lemma reachable_slot size rb c :
  0 < size <= 2 ^ 63 -> reachable_fresh size rb ->
  slot rb c = Z.to_nat (c mod Cap rb) /\
  (slot rb c < length (nodes rb))%nat /\
  is_Some (nodes rb !! slot rb c).
Proof.
  intros Hs Hr. destruct (reachable_mask size rb Hs Hr) as (k & Hk & Ec & Em).
  assert (slot rb c = Z.to_nat (c mod Cap rb)) as E.
  { unfold slot. by rewrite Em, Ec, Z.sub_1_r, <- Z.ones_equiv, Z.land_ones by lia. }
  assert (0 < 2 ^ k) as Hp by (apply Z.pow_pos_nonneg; lia).
  assert (slot rb c < length (nodes rb))%nat as Hlt.
  { rewrite E. pose proof (Z.mod_pos_bound c (Cap rb) ltac:(lia)).
    unfold Cap in *. lia. }
  split; [done|]. split; [done|]. by apply lookup_lt_is_Some.
Qed.

Lemma slot_is_counter_mod_Cap_fresh size rb c :
  0 < size <= 2 ^ 63 -> reachable_fresh size rb ->
  slot rb c = Z.to_nat (c mod Cap rb) /\
  (slot rb c < length (nodes rb))%nat /\
  is_Some (nodes rb !! slot rb c).
Proof. apply reachable_slot. Qed.

Lemma put_loop_no_panic fuel rb item offer tl f :
  (forall c, is_Some (nodes rb !! slot rb c)) ->
  put_loop fuel rb item offer tl <> Panic f.
Proof.
  intros Hs. revert tl. induction fuel as [|fuel IH]; intros tl; [done|]. simpl.
  destruct (disposed rb =? 1); [done|].
  destruct (Hs tl) as [n ->].
  destruct (wrap (position n - tl) =? 0).
  - destruct (tail rb =? tl); [done|]. destruct offer; [done|apply IH].
  - destruct (Z.ltb_spec (wrap (position n - tl)) 0) as [Hlt|_].
    + pose proof (wrap_range (position n - tl)). lia.
    + destruct offer; [done|apply IH].
Qed.

(** X2: on a buffer constructed with a size from 1 to 2^63, in every
    state it reaches, the slot index [c & mask] is [c] modulo Cap() for
    every counter value [c], so it always falls inside the slice. *)
Theorem slot_is_counter_mod_Cap limit size rb c :
  0 < size <= 2 ^ 63 -> reachable limit size rb ->
  slot rb c = Z.to_nat (c mod Cap rb) /\
  (slot rb c < length (nodes rb))%nat /\
  is_Some (nodes rb !! slot rb c).
Proof.
  intros Hs Hr%reachable_fresh_of. by apply (slot_is_counter_mod_Cap_fresh size).
Qed.

Lemma Poll_loop_no_panic fuel since k rb timeout pos f :
  (forall c, is_Some (nodes rb !! slot rb c)) ->
  Poll_loop fuel since k rb timeout pos <> Panic f.
Proof.
  intros Hs. revert k pos. induction fuel as [|fuel IH]; intros k pos; [done|].
  simpl. destruct (disposed rb =? 1); [done|].
  destruct (Hs pos) as [n ->].
  destruct (wrap (position n - wrap (pos + 1)) =? 0).
  - destruct (head rb =? pos); [done|].
    destruct ((0 <? timeout) && (timeout <=? since k)); [done|apply IH].
  - destruct (Z.ltb_spec (wrap (position n - wrap (pos + 1))) 0) as [Hlt|_].
    + pose proof (wrap_range (position n - wrap (pos + 1))). lia.
    + destruct ((0 <? timeout) && (timeout <=? since k)); [done|apply IH].
Qed.

Lemma valid_buffer_never_panics_fresh size rb fuel since item timeout f :
  0 < size <= 2 ^ 63 -> reachable_fresh size rb ->
  Put fuel rb item <> Panic f /\
  Offer fuel rb item <> Panic f /\
  Get fuel since rb <> Panic f /\
  Poll fuel since rb timeout <> Panic f.
Proof.
  intros Hs Hr.
  assert (Hsl : forall c, is_Some (nodes rb !! slot rb c)).
  { intros c. by destruct (reachable_slot size rb c Hs Hr) as (_ & _ & ?). }
  repeat split.
  - unfold Put. destruct (put fuel rb item false) as [[b e] rb'|f'|] eqn:E;
      try done.
    by apply put_loop_no_panic in E.
  - by apply put_loop_no_panic.
  - by apply Poll_loop_no_panic.
  - by apply Poll_loop_no_panic.
Qed.

(** X3: on a buffer constructed with a size from 1 to 2^63 no call ever
    panics, in any state the buffer reaches on one thread: neither on the
    slice index nor through the two panic statements. *)
Theorem valid_buffer_never_panics limit size rb fuel since item timeout f :
  0 < size <= 2 ^ 63 -> reachable limit size rb ->
  Put fuel rb item <> Panic f /\
  Offer fuel rb item <> Panic f /\
  Get fuel since rb <> Panic f /\
  Poll fuel since rb timeout <> Panic f.
Proof.
  intros Hs Hr%reachable_fresh_of. by apply (valid_buffer_never_panics_fresh size).
Qed.

(** ** Calls that cannot wait for ever *)

(** X4: Offer never waits, whatever the state of the buffer: it is done
    within its first loop iteration, so granting it more iterations
    changes nothing. *)
Theorem Offer_never_blocks rb item fuel :
  Offer (S fuel) rb item <> Spin /\
  Offer (S fuel) rb item = Offer 1 rb item.
Proof.
  unfold Offer, put. simpl.
  destruct (disposed rb =? 1); [done|].
  destruct (nodes rb !! slot rb (tail rb)) as [n|]; [|done].
  destruct (wrap (position n - tail rb) =? 0).
  - by destruct (tail rb =? tail rb).
  - by destruct (wrap (position n - tail rb) <? 0).
Qed.

Lemma Poll_loop_deadline fuel since k rb timeout pos K :
  0 < timeout -> timeout <= since K -> (k <= K < k + fuel)%nat ->
  Poll_loop fuel since k rb timeout pos <> Spin.
Proof.
  intros Ht Hk. revert k pos. induction fuel as [|fuel IH]; intros k pos HK; [lia|].
  simpl. destruct (disposed rb =? 1); [done|].
  destruct (nodes rb !! slot rb pos) as [n|]; [|done].
  assert (Hnext : forall pos',
    (if (0 <? timeout) && (timeout <=? since k)
     then Ret (None, Some ErrTimeout) rb
     else Poll_loop fuel since (S k) rb timeout pos') <> Spin).
  { intros pos'.
    destruct ((0 <? timeout) && (timeout <=? since k)) eqn:E; [done|].
    apply IH. destruct (decide (k = K)) as [->|]; [|lia].
    apply andb_false_iff in E as [E|E]; [apply Z.ltb_ge in E|apply Z.leb_gt in E];
      lia. }
  destruct (wrap (position n - wrap (pos + 1)) =? 0).
  - destruct (head rb =? pos); [done|apply Hnext].
  - destruct (wrap (position n - wrap (pos + 1)) <? 0); [done|apply Hnext].
Qed.

(** X5: Poll with a positive timeout does not wait past its deadline,
    whatever the state of the buffer: once the clock has read at least
    the timeout in iteration K, the call is over by the end of that
    iteration. *)
Theorem Poll_returns_by_deadline rb since timeout (K fuel : nat) :
  0 < timeout -> timeout <= since K -> (K < fuel)%nat ->
  Poll fuel since rb timeout <> Spin.
Proof.
  intros Ht Hk Hf. unfold Poll. apply (Poll_loop_deadline _ _ _ _ _ _ K); [done..|lia].
Qed.

Lemma Poll_loop_timeout fuel since k rb timeout pos v rb' :
  Poll_loop fuel since k rb timeout pos = Ret (v, Some ErrTimeout) rb' ->
  0 < timeout /\ v = None /\ rb' = rb /\
  exists j, (k <= j < k + fuel)%nat /\ timeout <= since j.
Proof.
  revert k pos. induction fuel as [|fuel IH]; intros k pos; [discriminate|].
  simpl. destruct (disposed rb =? 1); [discriminate|].
  destruct (nodes rb !! slot rb pos) as [n|]; [|discriminate].
  assert (Hnext : forall pos',
    (if (0 <? timeout) && (timeout <=? since k)
     then Ret (None, Some ErrTimeout) rb
     else Poll_loop fuel since (S k) rb timeout pos')
    = Ret (v, Some ErrTimeout) rb' ->
    0 < timeout /\ v = None /\ rb' = rb /\
    exists j, (k <= j < k + S fuel)%nat /\ timeout <= since j).
  { intros pos'.
    destruct ((0 <? timeout) && (timeout <=? since k)) eqn:E.
    - intros [= <- <-]. apply andb_true_iff in E as [E1 E2].
      apply Z.ltb_lt in E1. apply Z.leb_le in E2.
      repeat split; try done. exists k. split; [lia|done].
    - intros (? & ? & ? & j & Hj & ?)%IH. repeat split; try done.
      exists j. split; [lia|done]. }
  destruct (wrap (position n - wrap (pos + 1)) =? 0).
  - destruct (head rb =? pos); [discriminate|apply Hnext].
  - destruct (wrap (position n - wrap (pos + 1)) <? 0); [discriminate|apply Hnext].
Qed.

(** X6: Poll reports the Timeout failure only under a positive timeout
    and only after its clock has read at least that timeout in one of the
    iterations it ran; it then hands out no value and leaves the buffer
    as it was. *)
Theorem Poll_timeout_only_after_deadline rb fuel since timeout v rb' :
  Poll fuel since rb timeout = Ret (v, Some ErrTimeout) rb' ->
  0 < timeout /\ v = None /\ rb' = rb /\
  exists j, (j < fuel)%nat /\ timeout <= since j.
Proof.
  intros (? & ? & ? & j & Hj & ?)%Poll_loop_timeout. repeat split; try done.
  exists j. split; [lia|done].
Qed.

(** ** What a call leaves alone *)

Lemma put_loop_frame fuel rb item offer tl b e rb' :
  put_loop fuel rb item offer tl = Ret (b, e) rb' ->
  (b = true /\ e = None /\
   exists t, rb' = publish (set_tail rb (wrap (t + 1))) (slot rb t) item t) \/
  (b = false /\ rb' = rb).
Proof.
  revert tl. induction fuel as [|fuel IH]; intros tl; simpl; [discriminate|].
  destruct (disposed rb =? 1); [intros [= <- <- <-]; by right|].
  destruct (nodes rb !! slot rb tl) as [n|]; [|discriminate].
  destruct (wrap (position n - tl) =? 0).
  - destruct (tail rb =? tl).
    + intros [= <- <- <-]. left. repeat split. by exists tl.
    + destruct offer; [intros [= <- <- <-]; by right|apply IH].
  - destruct (wrap (position n - tl) <? 0); [discriminate|].
    destruct offer; [intros [= <- <- <-]; by right|apply IH].
Qed.

Lemma Poll_loop_frame fuel since k rb timeout pos v e rb' :
  Poll_loop fuel since k rb timeout pos = Ret (v, e) rb' ->
  (e = None /\
   exists p n, nodes rb !! slot rb p = Some n /\ v = data n /\
     rb' = release (set_head rb (wrap (p + 1))) (slot rb p) p) \/
  (e <> None /\ v = None /\ rb' = rb).
Proof.
  revert k pos. induction fuel as [|fuel IH]; intros k pos; simpl; [discriminate|].
  destruct (disposed rb =? 1); [intros [= <- <- <-]; by right|].
  destruct (nodes rb !! slot rb pos) as [n|] eqn:En; [|discriminate].
  destruct (wrap (position n - wrap (pos + 1)) =? 0).
  - destruct (head rb =? pos).
    + intros [= <- <- <-]. left. split; [done|]. by exists pos, n.
    + destruct ((0 <? timeout) && (timeout <=? since k));
        [intros [= <- <- <-]; by right|apply IH].
  - destruct (wrap (position n - wrap (pos + 1)) <? 0); [discriminate|].
    destruct ((0 <? timeout) && (timeout <=? since k));
      [intros [= <- <- <-]; by right|apply IH].
Qed.

Lemma put_loop_accepted fuel rb item offer tl e rb' :
  put_loop fuel rb item offer tl = Ret (true, e) rb' ->
  e = None /\
  exists n, nodes rb !! slot rb (tail rb) = Some n /\
    wrap (position n - tail rb) = 0 /\
    rb' = publish (set_tail rb (wrap (tail rb + 1)))
                  (slot rb (tail rb)) item (tail rb).
Proof.
  revert tl. induction fuel as [|fuel IH]; intros tl; simpl; [discriminate|].
  destruct (disposed rb =? 1); [discriminate|].
  destruct (nodes rb !! slot rb tl) as [n|] eqn:En; [|discriminate].
  destruct (Z.eqb_spec (wrap (position n - tl)) 0) as [Ep|_].
  - destruct (Z.eqb_spec (tail rb) tl) as [<-|_].
    + intros [= <- <-]. split; [done|]. by exists n.
    + destruct offer; [discriminate|apply IH].
  - destruct (wrap (position n - tl) <? 0); [discriminate|].
    destruct offer; [discriminate|apply IH].
Qed.

(** X13: in any state, a returning put (the body of Put and Offer) never
    writes head, mask, the disposed flag or the length of the slice.  It
    reports "accepted" only with a nil error, and then it has overwritten
    exactly one slot, the existing slot at [tail & mask], with the item
    and the sequence tail + 1, has left every other slot alone and has
    advanced tail by one.  When it reports "not accepted" (buffer full on
    Offer, or disposed) it has changed nothing at all. *)
Theorem put_leaves_the_rest_alone rb fuel item offer b e rb' :
  put fuel rb item offer = Ret (b, e) rb' ->
  head rb' = head rb /\ mask rb' = mask rb /\
  disposed rb' = disposed rb /\ Cap rb' = Cap rb /\
  (b = true ->
     e = None /\
     (slot rb (tail rb) < length (nodes rb))%nat /\
     nodes rb' = <[slot rb (tail rb) := mkNode (wrap (tail rb + 1)) item]> (nodes rb) /\
     nodes rb' !! slot rb (tail rb) = Some (mkNode (wrap (tail rb + 1)) item) /\
     (forall j, j <> slot rb (tail rb) -> nodes rb' !! j = nodes rb !! j) /\
     tail rb' = wrap (tail rb + 1)) /\
  (b = false -> rb' = rb).
Proof.
  intros Hr. destruct b.
  - apply put_loop_accepted in Hr as (-> & n & Hn & _ & ->).
    pose proof (lookup_lt_Some _ _ _ Hn) as Hlt.
    unfold Cap. simpl. rewrite length_insert. repeat split; try done.
    + by apply list_lookup_insert_eq.
    + intros j Hj. by apply list_lookup_insert_ne.
  - apply put_loop_frame in Hr as [(? & _)|(_ & ->)]; [done|].
    repeat split; done.
Qed.

(** X14: in any state, a returning Poll (and so Get) never writes tail,
    mask, the disposed flag or the length of the slice; with a nil error
    it returns the value of one slot, which it clears, and writes head;
    with an error (Disposed or Timeout) it returns no value and has
    changed nothing at all. *)
Theorem Poll_leaves_the_rest_alone rb fuel since timeout v e rb' :
  Poll fuel since rb timeout = Ret (v, e) rb' ->
  tail rb' = tail rb /\ mask rb' = mask rb /\
  disposed rb' = disposed rb /\ Cap rb' = Cap rb /\
  (e = None -> exists i n n',
     nodes rb !! i = Some n /\ v = data n /\
     nodes rb' = <[i := n']> (nodes rb) /\ data n' = None) /\
  (e <> None -> v = None /\ rb' = rb).
Proof.
  intros [(-> & p & n & Hn & -> & ->)|(He & -> & ->)]%Poll_loop_frame.
  - unfold Cap. simpl. rewrite length_insert. repeat split; try done.
    intros _. by eexists _, n, _.
  - repeat split; done.
Qed.

End Safety.

Section Progress.

Context {V : Type}.
Implicit Types (rb : RingBuffer V) (item : option V).

(** ** When a call goes through, and when it waits *)

Lemma reachable_Cap_ge_2 size rb :
  2 <= size <= 2 ^ 63 -> reachable_fresh size rb -> 2 <= Cap rb.
Proof.
  intros Hs Hr. rewrite (reachable_Cap size) by done.
  destruct (roundUp_least_pow2 size ltac:(lia)) as [(_ & Hge & _) _]. lia.
Qed.

Lemma Put_with_room_stores_fresh size rb item fuel :
  2 <= size <= 2 ^ 63 -> reachable_fresh size rb ->
  disposed rb <> 1 -> Len rb < Cap rb ->
  exists rb',
    Put (S fuel) rb item = Ret None rb' /\
    Offer (S fuel) rb item = Ret (true, None) rb' /\
    nodes rb' = <[slot rb (tail rb) := mkNode (wrap (tail rb + 1)) item]> (nodes rb) /\
    tail rb' = wrap (tail rb + 1) /\ head rb' = head rb /\
    Len rb' = Len rb + 1.
Proof.
  intros Hs Hr Hd Hroom. destruct (reachable_Inv size rb Hs Hr) as (H & q & HI).
  rewrite (Inv_Len _ _ _ HI) in *.
  pose proof (inv_free _ _ _ HI (length q) (le_n _) Hroom) as Hn.
  assert (slot rb (tail rb) = idx (Cap rb) (H + Z.of_nat (length q))) as Es.
  { rewrite (inv_tail _ _ _ HI). by apply (Inv_slot _ H q). }
  rewrite <- Es, <- (inv_tail _ _ _ HI) in Hn.
  set (rb' := publish (set_tail rb (wrap (tail rb + 1)))
                      (slot rb (tail rb)) item (tail rb)).
  assert (Hp : forall offer, put (S fuel) rb item offer = Ret (true, None) rb').
  { intros offer. unfold put.
    rewrite (put_loop_claim _ _ _ _ _ Hd Hn); [done|].
    simpl. by rewrite Z.sub_diag. }
  destruct (put_ok fuel rb H q item false HI Hd Hroom) as (rb1 & E1 & HI1 & _).
  rewrite Hp in E1. injection E1 as <-.
  exists rb'. split; [unfold Put; by rewrite Hp|]. split; [apply Hp|].
  rewrite (Inv_Len _ _ _ HI1), length_app. simpl. repeat split. lia.
Qed.

(** X7: with capacity at least 2, on a buffer that is neither disposed
    nor full, Put and Offer go through in their first iteration: both
    store the item in the slot at [tail & mask] with sequence tail + 1,
    advance tail by one, leave head alone, and Len() grows by one. *)
Theorem Put_with_room_stores limit size rb item fuel :
  2 <= size <= 2 ^ 63 -> reachable limit size rb ->
  disposed rb <> 1 -> Len rb < Cap rb ->
  exists rb',
    Put (S fuel) rb item = Ret None rb' /\
    Offer (S fuel) rb item = Ret (true, None) rb' /\
    nodes rb' = <[slot rb (tail rb) := mkNode (wrap (tail rb + 1)) item]> (nodes rb) /\
    tail rb' = wrap (tail rb + 1) /\ head rb' = head rb /\
    Len rb' = Len rb + 1.
Proof.
  intros Hs Hr%reachable_fresh_of. by apply (Put_with_room_stores_fresh size).
Qed.

Lemma Get_with_item_takes_fresh size rb :
  2 <= size <= 2 ^ 63 -> reachable_fresh size rb ->
  disposed rb <> 1 -> 0 < Len rb ->
  exists v rb',
    nodes rb !! slot rb (head rb) = Some (mkNode (wrap (head rb + 1)) v) /\
    (forall fuel since, Get (S fuel) since rb = Ret (v, None) rb') /\
    (forall fuel since timeout, Poll (S fuel) since rb timeout = Ret (v, None) rb') /\
    nodes rb' = <[slot rb (head rb) := mkNode (wrap (head rb + Cap rb)) None]> (nodes rb) /\
    head rb' = wrap (head rb + 1) /\ tail rb' = tail rb /\
    Len rb' = Len rb - 1.
Proof.
  intros Hs Hr Hd Hlen. destruct (reachable_Inv size rb Hs Hr) as (H & q & HI).
  rewrite (Inv_Len _ _ _ HI) in *.
  destruct q as [|v q]; [simpl in Hlen; lia|].
  pose proof (inv_used _ _ _ HI 0%nat v eq_refl) as Hn.
  simpl in Hn. rewrite Z.add_0_r in Hn.
  assert (slot rb (head rb) = idx (Cap rb) H) as Es.
  { rewrite (inv_head _ _ _ HI). by apply (Inv_slot _ H (v :: q)). }
  rewrite <- Es, <- wrap_add_l, <- (inv_head _ _ _ HI) in Hn.
  set (rb' := release (set_head rb (wrap (head rb + 1))) (slot rb (head rb)) (head rb)).
  assert (Hp : forall fuel since timeout,
            Poll (S fuel) since rb timeout = Ret (v, None) rb').
  { intros fuel since timeout. unfold Poll.
    rewrite (Poll_loop_claim _ _ _ _ _ _ Hd Hn); [done|].
    simpl. by rewrite Z.sub_diag. }
  destruct (get_ok 0 since0 rb H v q 0 HI Hd) as (rb1 & E1 & HI1 & _).
  rewrite Hp in E1. injection E1 as <-.
  exists v, rb'. split; [done|]. split; [intros; apply Hp|]. split; [done|].
  rewrite (Inv_Len _ _ _ HI1). unfold rb'. simpl.
  rewrite (inv_mask _ _ _ HI), wrap_add_l.
  replace (head rb + (Cap rb - 1) + 1) with (head rb + Cap rb) by lia.
  repeat split. lia.
Qed.

(** X8: with capacity at least 2, on a buffer that is not disposed and
    holds at least one item, Get and Poll go through in their first
    iteration, whatever the timeout and the clock: they return the value
    of the slot at [head & mask], set that slot to no value with sequence
    head + Cap(), advance head by one, leave tail alone, and Len()
    shrinks by one. *)
Theorem Get_with_item_takes limit size rb :
  2 <= size <= 2 ^ 63 -> reachable limit size rb ->
  disposed rb <> 1 -> 0 < Len rb ->
  exists v rb',
    nodes rb !! slot rb (head rb) = Some (mkNode (wrap (head rb + 1)) v) /\
    (forall fuel since, Get (S fuel) since rb = Ret (v, None) rb') /\
    (forall fuel since timeout, Poll (S fuel) since rb timeout = Ret (v, None) rb') /\
    nodes rb' = <[slot rb (head rb) := mkNode (wrap (head rb + Cap rb)) None]> (nodes rb) /\
    head rb' = wrap (head rb + 1) /\ tail rb' = tail rb /\
    Len rb' = Len rb - 1.
Proof.
  intros Hs Hr%reachable_fresh_of. by apply (Get_with_item_takes_fresh size).
Qed.

Lemma Poll_loop_empty_skip (a b : nat) since k rb H timeout :
  Inv rb H [] -> disposed rb <> 1 ->
  (forall j, (k <= j < k + a)%nat -> since j < timeout) ->
  Poll_loop (a + b) since k rb timeout (head rb)
  = Poll_loop b since (k + a) rb timeout (head rb).
Proof.
  intros HI Hd. revert k. induction a as [|a IH]; intros k Hj.
  - by rewrite Nat.add_0_r.
  - cbn [Nat.add]. rewrite (Poll_loop_empty _ _ _ _ H) by done.
    replace (timeout <=? since k) with false
      by (symmetry; apply Z.leb_gt, Hj; lia).
    rewrite andb_false_r, IH by (intros; apply Hj; lia).
    f_equal. lia.
Qed.

Lemma empty_buffer_waits_fresh size rb :
  2 <= size <= 2 ^ 63 -> reachable_fresh size rb ->
  disposed rb <> 1 -> Len rb = 0 ->
  (forall fuel since, Get fuel since rb = Spin) /\
  (forall since timeout (K : nat),
     0 < timeout ->
     (forall j, (j < K)%nat -> since j < timeout) -> timeout <= since K ->
     (forall fuel, (fuel <= K)%nat -> Poll fuel since rb timeout = Spin) /\
     (forall fuel, (K < fuel)%nat ->
        Poll fuel since rb timeout = Ret (None, Some ErrTimeout) rb)).
Proof.
  intros Hs Hr Hd Hlen. destruct (reachable_Inv size rb Hs Hr) as (H & q & HI).
  rewrite (Inv_Len _ _ _ HI) in Hlen. destruct q; [|simpl in Hlen; lia].
  split; [intros; by apply (Get_empty_blocks _ _ _ H)|].
  intros since timeout K Ht Hbefore Hat. split.
  - intros fuel Hf. unfold Poll.
    rewrite <- (Nat.add_0_r fuel), (Poll_loop_empty_skip fuel 0 _ _ _ H); [done..|].
    intros j Hj. apply Hbefore. lia.
  - intros fuel Hf. unfold Poll.
    replace fuel with (K + S (fuel - S K))%nat by lia.
    rewrite (Poll_loop_empty_skip K _ _ _ _ H) by (done || (intros; apply Hbefore; lia)).
    rewrite (Poll_loop_empty _ _ _ _ H) by done. simpl.
    replace (0 <? timeout) with true by (symmetry; apply Z.ltb_lt; lia).
    replace (timeout <=? since K) with true by (symmetry; apply Z.leb_le; lia).
    done.
Qed.

(** X9: with capacity at least 2, on an empty buffer that is not
    disposed, Get never returns on one thread, and Poll with a positive
    timeout keeps waiting as long as its clock reads less than the
    timeout and returns the Timeout failure, the buffer unchanged, in the
    first iteration in which the clock reads at least the timeout. *)
Theorem empty_buffer_waits limit size rb :
  2 <= size <= 2 ^ 63 -> reachable limit size rb ->
  disposed rb <> 1 -> Len rb = 0 ->
  (forall fuel since, Get fuel since rb = Spin) /\
  (forall since timeout (K : nat),
     0 < timeout ->
     (forall j, (j < K)%nat -> since j < timeout) -> timeout <= since K ->
     (forall fuel, (fuel <= K)%nat -> Poll fuel since rb timeout = Spin) /\
     (forall fuel, (K < fuel)%nat ->
        Poll fuel since rb timeout = Ret (None, Some ErrTimeout) rb)).
Proof.
  intros Hs Hr%reachable_fresh_of. by apply (empty_buffer_waits_fresh size).
Qed.

(** ** Construction *)

(** X10: for a size from 1 to 2^63, roundUp returns at least the size and
    less than twice the size, leaves its own results unchanged, and is
    monotone. *)
Theorem roundUp_bounds v :
  0 < v <= 2 ^ 63 ->
  v <= roundUp v < 2 * v /\
  roundUp (roundUp v) = roundUp v /\
  (forall w, v <= w <= 2 ^ 63 -> roundUp v <= roundUp w).
Proof.
  intros Hv. pose proof (Z.log2_up_nonneg v) as Hl.
  assert (Z.log2_up v <= 63) as Hl63 by (apply Z.log2_up_le_pow2; lia).
  assert (2 ^ Z.log2_up v <= 2 ^ 63) as Hp63 by (apply Z.pow_le_mono_r; lia).
  assert (0 < 2 ^ Z.log2_up v) as Hpos by (apply Z.pow_pos_nonneg; lia).
  rewrite !roundUp_log2_up by (rewrite ?roundUp_log2_up; lia).
  split; [split|split].
  - apply Z.log2_up_le_pow2; lia.
  - destruct (Z.eq_dec v 1) as [->|Hne]; [reflexivity|].
    pose proof (Z.log2_up_spec v ltac:(lia)) as [Hlow _].
    assert (0 < Z.log2_up v) by (apply Z.log2_up_pos; lia).
    replace (Z.log2_up v) with (Z.succ (Z.pred (Z.log2_up v))) by lia.
    rewrite Z.pow_succ_r by lia. lia.
  - by rewrite Z.log2_up_pow2.
  - intros w Hw. rewrite roundUp_log2_up by lia.
    apply Z.pow_le_mono_r; [lia|]. apply Z.log2_up_le_mono. lia.
Qed.

Lemma fresh_is_empty size :
  0 < size <= 2 ^ 63 ->
  tail (fresh (V:=V) size) = 0 /\
  head (fresh (V:=V) size) = 0 /\
  IsDisposed (fresh (V:=V) size) = false /\
  mask (fresh (V:=V) size) = Cap (fresh (V:=V) size) - 1 /\
  nodes (fresh (V:=V) size)
  = (fun i => mkNode (Z.of_nat i) None)
      <$> seq 0 (Z.to_nat (Cap (fresh (V:=V) size))) /\
  Len (fresh (V:=V) size) = 0.
Proof.
  intros Hs. pose proof (Inv_fresh (V:=V) size Hs) as HI.
  split; [done|]. split; [done|]. split; [done|].
  split; [apply (inv_mask _ _ _ HI)|]. split; [|apply (Inv_Len _ _ _ HI)].
  rewrite Cap_fresh. unfold fresh. simpl.
  apply init_nodes_fmap.
Qed.

(** X11: for a size from 1 to 2^62 whose rounded value the runtime can
    allocate, NewRingBuffer returns a buffer with tail = head = 0 that is
    not disposed; its mask is Cap() - 1, the slot numbered i holds the
    sequence i and no value, and Len() is 0. *)
Theorem NewRingBuffer_is_empty limit size :
  0 < size <= 2 ^ 62 -> roundUp size <= limit ->
  exists rb0, NewRingBuffer (V:=V) limit size = Some rb0 /\
    tail rb0 = 0 /\ head rb0 = 0 /\
    IsDisposed rb0 = false /\
    mask rb0 = Cap rb0 - 1 /\
    nodes rb0 = (fun i => mkNode (Z.of_nat i) None) <$> seq 0 (Z.to_nat (Cap rb0)) /\
    Len rb0 = 0.
Proof.
  intros Hs Hl. exists (fresh size).
  split; [apply NewRingBuffer_Some; by auto using roundUp_fits_int|].
  apply fresh_is_empty. lia.
Qed.

End Progress.

(** * Concrete runs *)

Lemma NewRingBuffer_new4 : NewRingBuffer max_int 4 = Some (new 4).
Proof. vm_compute. reflexivity. Qed.

Lemma NewRingBuffer_new1 : NewRingBuffer max_int 1 = Some (new 1).
Proof. vm_compute. reflexivity. Qed.

Lemma NewRingBuffer_new0 : NewRingBuffer max_int 0 = Some (new 0).
Proof. vm_compute. reflexivity. Qed.

Lemma reachable_rb_empty4 : reachable max_int 4 rb_empty4.
Proof. exists (new 4). split; [apply NewRingBuffer_new4|apply reach_here]. Qed.

Lemma reachable_rb_full4 : reachable max_int 4 rb_full4.
Proof.
  exists (new 4). split; [apply NewRingBuffer_new4|].
  apply (reach_call _ (foldl put_or_same (new 4) [1; 2; 3]%nat)
           rb_full4 1 since0 (OpPut (Some 4%nat))); [|reflexivity].
  apply (reach_call _ (foldl put_or_same (new 4) [1; 2]%nat)
           _ 1 since0 (OpPut (Some 3%nat))); [|reflexivity].
  apply (reach_call _ (foldl put_or_same (new 4) [1]%nat)
           _ 1 since0 (OpPut (Some 2%nat))); [|reflexivity].
  apply (reach_call _ (new 4) _ 1 since0 (OpPut (Some 1%nat))); [|reflexivity].
  apply reach_here.
Qed.

Lemma reachable_rb_full1 : reachable max_int 1 rb_full1.
Proof.
  exists (new 1). split; [apply NewRingBuffer_new1|].
  by apply (reach_call _ (new 1) rb_full1 1 since0 (OpPut (Some 1%nat)));
    [apply reach_here|].
Qed.

(** C4: with capacity 1, Offer on the full buffer left by one Put is
    accepted: it returns true, moves tail from 1 to 2 and overwrites the
    value that was waiting in the only slot. *)
Theorem Offer_on_full_buffer_of_capacity_1 :
  reachable max_int 1 rb_full1 /\
  disposed rb_full1 = 0 /\
  tail rb_full1 - head rb_full1 = Cap rb_full1 /\
  nodes rb_full1 = [mkNode 1 (Some 1%nat)] /\
  Offer 1 rb_full1 (Some 2%nat)
  = Ret (true, None) (mkRingBuffer 2 0 0 0 [mkNode 2 (Some 2%nat)]).
Proof.
  split; [apply reachable_rb_full1|repeat split; vm_compute; reflexivity].
Qed.

(** ** Counterexamples to the claims as first stated *)

(** C1 as stated fails: after Put(1), Put(2), Put(3), Put(4) on a buffer
    of capacity 4 and Dispose, the first Get returns the Disposed failure,
    not the value 1. *)
Lemma Get_after_Dispose_counterexample :
  NewRingBuffer max_int 4 = Some (new 4) /\
  put_all 1 (new 4) [Some 1; Some 2; Some 3; Some 4]%nat = Some rb_full4 /\
  Cap rb_full4 = 4 /\
  Get 1 since0 (Dispose rb_full4) = Ret (None, Some ErrDisposed) (Dispose rb_full4) /\
  forall fuel rb', Get fuel since0 (Dispose rb_full4) <> Ret (Some 1%nat, None) rb'.
Proof.
  split; [apply NewRingBuffer_new4|].
  split; [vm_compute; reflexivity|]. split; [vm_compute; reflexivity|].
  split; [vm_compute; reflexivity|].
  intros [|fuel] rb'; [discriminate|].
  unfold Get. rewrite Poll_disposed by reflexivity. discriminate.
Qed.

(** C2 as stated fails: no panic is raised when the slot sequence is
    behind its counter.  On a full buffer of capacity 4 the slot loaded
    by Offer has sequence 1, below the local tail 4, and Offer returns
    "not accepted" while Put keeps retrying; on an empty buffer of
    capacity 4 the slot loaded by Poll has sequence 0, below
    head + 1 = 1, and Poll returns the Timeout failure while Get keeps
    retrying. *)
Lemma sequence_behind_does_not_panic :
  (nodes rb_full4 !! slot rb_full4 (tail rb_full4) = Some (mkNode 1 (Some 1%nat)) /\
   1 < tail rb_full4 /\
   Offer 1 rb_full4 (Some 5%nat) = Ret (false, None) rb_full4 /\
   Put 8 rb_full4 (Some 5%nat) = Spin) /\
  (nodes rb_empty4 !! slot rb_empty4 (head rb_empty4) = Some (mkNode 0 None) /\
   0 < head rb_empty4 + 1 /\
   Poll 1 (fun _ => 10) rb_empty4 10 = Ret (None, Some ErrTimeout) rb_empty4 /\
   Get 8 since0 rb_empty4 = Spin).
Proof. repeat split; vm_compute; reflexivity. Qed.

(** C3 as stated fails: for the requested size 2^63 + 1 the increment in
    roundUp wraps to 0, make(nodes, 0) returns, Cap() is 0, and 0 is not
    at least the size. *)
Lemma Cap_overflow_counterexample :
  0 < 2 ^ 63 + 1 < 2 ^ 64 /\
  NewRingBuffer max_int (2 ^ 63 + 1) = Some (new (2 ^ 63 + 1)) /\
  Cap (new (2 ^ 63 + 1)) = 0 /\
  ~ least_pow2_ge (2 ^ 63 + 1) (Cap (new (2 ^ 63 + 1))).
Proof.
  split; [lia|]. split; [vm_compute; reflexivity|].
  split; [vm_compute; reflexivity|].
  intros (_ & Hge & _).
  change (Cap (new (2 ^ 63 + 1))) with 0 in Hge. lia.
Qed.

(** C8 as stated fails twice over.  The counters are uint64 and wrap: on
    a buffer of capacity 2, after 2^64 - 1 rounds of Put and Get one more
    Put leaves head = 2^64 - 1 and tail = 0, so head <= tail is false.
    And with capacity 1 two Puts in a row both return, after which
    tail = 2 and head = 0: Len() is 2 and Cap() is 1. *)
Lemma Len_le_Cap_counterexample :
  (exists rb : RingBuffer nat,
     reachable max_int 2 rb /\ Cap rb = 2 /\ ~ head rb <= tail rb) /\
  (reachable max_int 1 rb_over1 /\ tail rb_over1 = 2 /\ head rb_over1 = 0 /\
   Len rb_over1 = 2 /\ Cap rb_over1 = 1 /\ ~ Len rb_over1 <= Cap rb_over1).
Proof.
  split.
  - destruct (reachable_wrapped (V:=nat) 2 ltac:(lia)) as (rb & Hr & Hh & Ht).
    exists rb. split; [|split; [by rewrite (reachable_Cap 2)|]].
    + apply reachable_of_fresh; [vm_compute; discriminate..|done].
    + rewrite Hh, Ht. lia.
  - split; [|repeat split; try (vm_compute; reflexivity)].
    + destruct reachable_rb_full1 as (rb0 & E & Hr). exists rb0. split; [done|].
      by apply (reach_call _ rb_full1 rb_over1 1 since0 (OpPut (Some 2%nat))).
    + vm_compute. intros Hle. by apply Hle.
Qed.

(** C10 as stated fails: once the buffer of requested size 0 is disposed,
    Put returns the Disposed failure instead of faulting. *)
Lemma zero_size_disposed_counterexample :
  reachable max_int 0 rb_zero_disposed /\
  Put 1 rb_zero_disposed (Some 1%nat) = Ret (Some ErrDisposed) rb_zero_disposed /\
  Put 1 rb_zero_disposed (Some 1%nat) <> Panic IndexOutOfRange.
Proof.
  split; [|split; [vm_compute; reflexivity|done]].
  exists (new 0). split; [apply NewRingBuffer_new0|].
  by apply (reach_call _ (new 0) rb_zero_disposed 0 since0 OpDispose);
    [apply reach_here|].
Qed.

(** ** Instances of the theorems above on concrete buffers *)

Lemma Get_after_Dispose_returns_ErrDisposed_witness :
  NewRingBuffer max_int 3 = Some (new 3) /\
  Cap (new 3) = 4 /\
  exists rb rb_drained,
    put_all 1 (new 3) [Some 1; Some 2; Some 3; Some 4]%nat = Some rb /\
    nodes rb = [mkNode 1 (Some 1); mkNode 2 (Some 2);
                mkNode 3 (Some 3); mkNode 4 (Some 4)]%nat /\
    get_all 1 since0 rb 4 = Some ([Some 1; Some 2; Some 3; Some 4]%nat, rb_drained) /\
    nodes (Dispose rb) = nodes rb /\
    Get 1 since0 (Dispose rb) = Ret (None, Some ErrDisposed) (Dispose rb).
Proof.
  assert (NewRingBuffer max_int 3 = Some (new 3)) as E by (vm_compute; reflexivity).
  assert (Cap (new 3) = 4) as Ec by (vm_compute; reflexivity).
  split; [exact E|]. split; [exact Ec|].
  exact (Get_after_Dispose_returns_ErrDisposed max_int 3 (new 3)
           (Some 1%nat) (Some 2%nat) (Some 3%nat) (Some 4%nat) 0 since0 E Ec).
Defined.

Lemma sequence_behind_retries_witness :
  disposed rb_full4 <> 1 /\
  nodes rb_full4 !! slot rb_full4 4 = Some (mkNode 1 (Some 1%nat)) /\
  0 <= 1 < 4 /\
  (forall fuel, put_loop (S fuel) rb_full4 (Some 5%nat) true 4
                = Ret (false, None) rb_full4) /\
  (forall fuel', put_loop fuel' rb_full4 (Some 5%nat) true 4 <> Panic CompromisedPut).
Proof.
  assert (disposed rb_full4 <> 1) as Hd by (vm_compute; discriminate).
  assert (nodes rb_full4 !! slot rb_full4 4 = Some (mkNode 1 (Some 1%nat))) as Hn
    by (vm_compute; reflexivity).
  split; [exact Hd|]. split; [exact Hn|]. split; [lia|].
  split.
  - intros fuel.
    exact (proj1 (sequence_behind_retries rb_full4 fuel since0 0 (Some 5%nat) true 0 4
                    (mkNode 1 (Some 1%nat)) Hd Hn ltac:(simpl; lia))
                 ltac:(simpl; lia)).
  - intros fuel'.
    exact (proj1 (proj2 (proj2
             (sequence_behind_retries rb_full4 0 since0 0 (Some 5%nat) true 0 4
                (mkNode 1 (Some 1%nat)) Hd Hn ltac:(simpl; lia))) fuel')).
Defined.

Lemma Cap_is_least_power_of_two_witness :
  0 < 8 <= 2 ^ 62 /\ roundUp 8 <= max_int /\
  exists rb0 : RingBuffer nat, NewRingBuffer max_int 8 = Some rb0 /\
    least_pow2_ge 8 (Cap rb0) /\
    (forall rb : RingBuffer nat, reachable max_int 8 rb -> Cap rb = Cap rb0) /\
    ((exists k, 8 = 2 ^ k) -> Cap rb0 = 8).
Proof.
  assert (roundUp 8 <= max_int) as Hl by (vm_compute; discriminate).
  split; [lia|]. split; [exact Hl|].
  apply (Cap_is_least_power_of_two (V:=nat) max_int 8); [lia|exact Hl].
Defined.

Lemma disposed_calls_return_ErrDisposed_witness :
  disposed (Dispose rb_full4) = 1 /\
  Put 1 (Dispose rb_full4) (Some 9%nat) = Ret (Some ErrDisposed) (Dispose rb_full4) /\
  Offer 1 (Dispose rb_full4) (Some 9%nat)
  = Ret (false, Some ErrDisposed) (Dispose rb_full4) /\
  Get 1 since0 (Dispose rb_full4) = Ret (None, Some ErrDisposed) (Dispose rb_full4) /\
  Poll 1 since0 (Dispose rb_full4) 7 = Ret (None, Some ErrDisposed) (Dispose rb_full4).
Proof.
  split; [reflexivity|].
  apply (disposed_calls_return_ErrDisposed (Dispose rb_full4) 0 since0 (Some 9%nat) 7).
  reflexivity.
Defined.

Lemma put_then_get_is_FIFO_witness :
  0 <= 4 < 2 ^ 64 /\
  NewRingBuffer max_int 4 = Some (new 4) /\
  Z.of_nat (length [Some 1; Some 2; Some 3]%nat) <= Cap (new 4) /\
  exists rb1 rb2,
    put_all 1 (new 4) [Some 1; Some 2; Some 3]%nat = Some rb1 /\
    get_all 1 since0 rb1 3 = Some ([Some 1; Some 2; Some 3]%nat, rb2).
Proof.
  assert (Z.of_nat (length [Some 1; Some 2; Some 3]%nat) <= Cap (new 4)) as Hl
    by (vm_compute; discriminate).
  split; [lia|]. split; [exact NewRingBuffer_new4|]. split; [exact Hl|].
  apply (put_then_get_is_FIFO max_int 4 (new 4) [Some 1; Some 2; Some 3]%nat 0 since0);
    [lia|exact NewRingBuffer_new4|exact Hl].
Defined.

Lemma Get_is_Poll_without_timeout_witness :
  -1 <= 0 /\
  Get 3 since0 rb_full4 = Poll 3 since0 rb_full4 0 /\
  (forall since', Poll 3 since' rb_full4 (-1) = Get 3 since0 rb_full4) /\
  (forall v rb', Poll 3 since0 rb_full4 (-1) <> Ret (v, Some ErrTimeout) rb') /\
  (Poll 3 since0 rb_full4 (-1) = Spin \/
   Poll 3 since0 rb_full4 (-1) = Panic IndexOutOfRange \/
   Poll 3 since0 rb_full4 (-1) = Ret (None, Some ErrDisposed) rb_full4 \/
   exists v rb', Poll 3 since0 rb_full4 (-1) = Ret (v, None) rb').
Proof.
  split; [lia|]. apply (Get_is_Poll_without_timeout rb_full4 3 since0 (-1)). lia.
Defined.

Lemma Dispose_sets_only_the_flag_witness :
  disposed rb_full4 = 0 /\
  Dispose rb_full4
  = mkRingBuffer (tail rb_full4) (head rb_full4) (mask rb_full4) 1 (nodes rb_full4) /\
  Dispose (Dispose rb_full4) = Dispose rb_full4 /\
  forall rb', reachable_from (Dispose rb_full4) rb' -> IsDisposed rb' = true.
Proof.
  split; [reflexivity|]. apply (Dispose_sets_only_the_flag rb_full4). reflexivity.
Defined.

Lemma reachable_Len_le_Cap_witness :
  2 <= 4 <= 2 ^ 63 /\ reachable max_int 4 rb_full4 /\
  Len rb_full4 <= Cap rb_full4 /\
  0 <= head rb_full4 < 2 ^ 64 /\ 0 <= tail rb_full4 < 2 ^ 64 /\
  (head rb_full4 <= tail rb_full4 <-> head rb_full4 + Len rb_full4 < 2 ^ 64).
Proof.
  split; [lia|]. split; [exact reachable_rb_full4|].
  apply (reachable_Len_le_Cap max_int 4 rb_full4); [lia|exact reachable_rb_full4].
Defined.

Lemma zero_size_buffer_faults_until_disposed_witness :
  NewRingBuffer max_int 0 = Some (new 0) /\
  reachable_from (new 0) (new 0) /\
  Cap (new 0) = 0 /\
  mask (new 0) = 2 ^ 64 - 1 /\
  Put 1 (new 0) (Some 1%nat) = Panic IndexOutOfRange.
Proof.
  assert (reachable_from (new 0) (new 0)) as Hr by apply reach_here.
  split; [exact NewRingBuffer_new0|]. split; [exact Hr|].
  destruct (zero_size_buffer_faults_until_disposed
              max_int (new 0) (new 0) 0 since0 (Some 1%nat) 0 NewRingBuffer_new0 Hr)
    as (Hc & Hm & _ & [(_ & Hp & _)|(Hd & _)]).
  - split; [exact Hc|]. split; [exact Hm|exact Hp].
  - discriminate Hd.
Defined.

(** ** Instances of the further properties *)

Lemma run_is_FIFO_witness :
  2 <= 2 <= 2 ^ 63 /\
  NewRingBuffer max_int 2 = Some (new 2) /\
  run steps_example (new 2)
  = Some (mkRingBuffer 3 2 1 1 [mkNode 3 (Some 4%nat); mkNode 3 None],
          [Some 1; Some 2; Some 4]%nat, [Some 1; Some 2]%nat) /\
  exists q,
    [Some 1; Some 2; Some 4]%nat = [Some 1; Some 2]%nat ++ q /\
    Len (mkRingBuffer 3 2 1 1 [mkNode 3 (Some 4%nat); mkNode 3 None])
    = Z.of_nat (length q).
Proof.
  assert (NewRingBuffer max_int 2 = Some (new 2)) as E by (vm_compute; reflexivity).
  assert (run steps_example (new 2)
          = Some (mkRingBuffer 3 2 1 1 [mkNode 3 (Some 4%nat); mkNode 3 None],
                  [Some 1; Some 2; Some 4]%nat, [Some 1; Some 2]%nat)) as Hrun
    by (vm_compute; reflexivity).
  split; [lia|]. split; [exact E|]. split; [exact Hrun|].
  destruct (run_is_FIFO max_int 2 (new 2) steps_example _ _ _ ltac:(lia) E Hrun)
    as (q & Eq & El & _).
  exists q. split; [exact Eq|exact El].
Defined.

Lemma slot_is_counter_mod_Cap_witness :
  0 < 4 <= 2 ^ 63 /\ reachable max_int 4 rb_full4 /\
  slot rb_full4 6 = Z.to_nat (6 mod Cap rb_full4) /\
  (slot rb_full4 6 < length (nodes rb_full4))%nat /\
  is_Some (nodes rb_full4 !! slot rb_full4 6).
Proof.
  split; [lia|]. split; [exact reachable_rb_full4|].
  apply (slot_is_counter_mod_Cap max_int 4 rb_full4 6); [lia|exact reachable_rb_full4].
Defined.

Lemma valid_buffer_never_panics_witness :
  0 < 4 <= 2 ^ 63 /\ reachable max_int 4 rb_full4 /\
  Put 3 rb_full4 (Some 5%nat) <> Panic IndexOutOfRange /\
  Offer 3 rb_full4 (Some 5%nat) <> Panic IndexOutOfRange /\
  Get 3 since0 rb_full4 <> Panic IndexOutOfRange /\
  Poll 3 since0 rb_full4 7 <> Panic IndexOutOfRange.
Proof.
  split; [lia|]. split; [exact reachable_rb_full4|].
  apply (valid_buffer_never_panics max_int 4 rb_full4 3 since0 (Some 5%nat) 7);
    [lia|exact reachable_rb_full4].
Defined.

Lemma Poll_returns_by_deadline_witness :
  0 < 3 /\ 3 <= Z.of_nat 3 /\ (3 < 4)%nat /\
  Poll 4 Z.of_nat rb_empty4 3 <> Spin.
Proof.
  split; [lia|]. split; [lia|]. split; [lia|].
  apply (Poll_returns_by_deadline rb_empty4 Z.of_nat 3 3 4); lia.
Defined.

Lemma Poll_timeout_only_after_deadline_witness :
  Poll 4 Z.of_nat rb_empty4 3 = Ret (None, Some ErrTimeout) rb_empty4 /\
  0 < 3 /\
  exists j, (j < 4)%nat /\ 3 <= Z.of_nat j.
Proof.
  assert (Poll 4 Z.of_nat rb_empty4 3 = Ret (None, Some ErrTimeout) rb_empty4) as Hp
    by (vm_compute; reflexivity).
  split; [exact Hp|].
  destruct (Poll_timeout_only_after_deadline rb_empty4 4 Z.of_nat 3 None rb_empty4 Hp)
    as (Ht & _ & _ & Hj).
  split; [exact Ht|exact Hj].
Defined.

Lemma Put_with_room_stores_witness :
  2 <= 4 <= 2 ^ 63 /\ reachable max_int 4 rb_empty4 /\
  disposed rb_empty4 <> 1 /\ Len rb_empty4 < Cap rb_empty4 /\
  exists rb',
    Put 1 rb_empty4 (Some 7%nat) = Ret None rb' /\
    Offer 1 rb_empty4 (Some 7%nat) = Ret (true, None) rb' /\
    nodes rb'
    = <[slot rb_empty4 (tail rb_empty4) :=
          mkNode (wrap (tail rb_empty4 + 1)) (Some 7%nat)]> (nodes rb_empty4) /\
    tail rb' = wrap (tail rb_empty4 + 1) /\ head rb' = head rb_empty4 /\
    Len rb' = Len rb_empty4 + 1.
Proof.
  assert (disposed rb_empty4 <> 1) as Hd by (vm_compute; discriminate).
  assert (Len rb_empty4 < Cap rb_empty4) as Hl by (vm_compute; reflexivity).
  split; [lia|]. split; [exact reachable_rb_empty4|]. split; [exact Hd|].
  split; [exact Hl|].
  apply (Put_with_room_stores max_int 4 rb_empty4 (Some 7%nat) 0);
    [lia|exact reachable_rb_empty4|exact Hd|exact Hl].
Defined.

Lemma Get_with_item_takes_witness :
  2 <= 4 <= 2 ^ 63 /\ reachable max_int 4 rb_full4 /\
  disposed rb_full4 <> 1 /\ 0 < Len rb_full4 /\
  exists v rb',
    nodes rb_full4 !! slot rb_full4 (head rb_full4)
    = Some (mkNode (wrap (head rb_full4 + 1)) v) /\
    (forall fuel since, Get (S fuel) since rb_full4 = Ret (v, None) rb') /\
    (forall fuel since timeout,
       Poll (S fuel) since rb_full4 timeout = Ret (v, None) rb') /\
    nodes rb'
    = <[slot rb_full4 (head rb_full4) :=
          mkNode (wrap (head rb_full4 + Cap rb_full4)) None]> (nodes rb_full4) /\
    head rb' = wrap (head rb_full4 + 1) /\ tail rb' = tail rb_full4 /\
    Len rb' = Len rb_full4 - 1.
Proof.
  assert (disposed rb_full4 <> 1) as Hd by (vm_compute; discriminate).
  assert (0 < Len rb_full4) as Hl by (vm_compute; reflexivity).
  split; [lia|]. split; [exact reachable_rb_full4|]. split; [exact Hd|].
  split; [exact Hl|].
  apply (Get_with_item_takes max_int 4 rb_full4);
    [lia|exact reachable_rb_full4|exact Hd|exact Hl].
Defined.

Lemma empty_buffer_waits_witness :
  2 <= 4 <= 2 ^ 63 /\ reachable max_int 4 rb_empty4 /\
  disposed rb_empty4 <> 1 /\ Len rb_empty4 = 0 /\
  (forall fuel since, Get fuel since rb_empty4 = Spin).
Proof.
  assert (disposed rb_empty4 <> 1) as Hd by (vm_compute; discriminate).
  assert (Len rb_empty4 = 0) as Hl by (vm_compute; reflexivity).
  split; [lia|]. split; [exact reachable_rb_empty4|]. split; [exact Hd|].
  split; [exact Hl|].
  exact (proj1 (empty_buffer_waits max_int 4 rb_empty4 ltac:(lia)
                  reachable_rb_empty4 Hd Hl)).
Defined.

Lemma roundUp_bounds_witness :
  0 < 5 <= 2 ^ 63 /\
  5 <= roundUp 5 < 2 * 5 /\
  roundUp (roundUp 5) = roundUp 5 /\
  (forall w, 5 <= w <= 2 ^ 63 -> roundUp 5 <= roundUp w).
Proof.
  split; [lia|]. apply (roundUp_bounds 5). lia.
Defined.

Lemma NewRingBuffer_is_empty_witness :
  0 < 3 <= 2 ^ 62 /\ roundUp 3 <= max_int /\
  exists rb0 : RingBuffer nat, NewRingBuffer max_int 3 = Some rb0 /\
    tail rb0 = 0 /\ head rb0 = 0 /\
    IsDisposed rb0 = false /\
    mask rb0 = Cap rb0 - 1 /\
    nodes rb0 = (fun i => mkNode (Z.of_nat i) None) <$> seq 0 (Z.to_nat (Cap rb0)) /\
    Len rb0 = 0.
Proof.
  assert (roundUp 3 <= max_int) as Hl by (vm_compute; discriminate).
  split; [lia|]. split; [exact Hl|].
  apply (NewRingBuffer_is_empty (V:=nat) max_int 3); [lia|exact Hl].
Defined.

Lemma reachable_full_witness :
  2 <= 4 <= 2 ^ 63 /\ reachable max_int 4 rb_full4 /\
  disposed rb_full4 <> 1 /\ Len rb_full4 = Cap rb_full4 /\
  (forall fuel, Offer (S fuel) rb_full4 (Some 5%nat) = Ret (false, None) rb_full4) /\
  (forall fuel, Put fuel rb_full4 (Some 5%nat) = Spin).
Proof.
  assert (disposed rb_full4 <> 1) as Hd by (vm_compute; discriminate).
  assert (Len rb_full4 = Cap rb_full4) as Hl by (vm_compute; reflexivity).
  split; [lia|]. split; [exact reachable_rb_full4|]. split; [exact Hd|].
  split; [exact Hl|].
  apply (reachable_full max_int 4 rb_full4 (Some 5%nat));
    [lia|exact reachable_rb_full4|exact Hd|exact Hl].
Defined.

Lemma put_leaves_the_rest_alone_witness :
  put 1 rb_full1 (Some 2%nat) false
  = Ret (true, None) (mkRingBuffer 2 0 0 0 [mkNode 2 (Some 2%nat)]) /\
  head (mkRingBuffer 2 0 0 0 [mkNode 2 (Some 2%nat)]) = head rb_full1 /\
  Cap (mkRingBuffer 2 0 0 0 [mkNode 2 (Some 2%nat)]) = Cap rb_full1 /\
  (slot rb_full1 (tail rb_full1) < length (nodes rb_full1))%nat.
Proof.
  assert (put 1 rb_full1 (Some 2%nat) false
          = Ret (true, None) (mkRingBuffer 2 0 0 0 [mkNode 2 (Some 2%nat)])) as Hp
    by (vm_compute; reflexivity).
  split; [exact Hp|].
  destruct (put_leaves_the_rest_alone _ _ _ _ _ _ _ Hp) as (Hh & _ & _ & Hc & Ht & _).
  split; [exact Hh|]. split; [exact Hc|].
  exact (proj1 (proj2 (Ht eq_refl))).
Defined.

Lemma Poll_leaves_the_rest_alone_witness :
  Poll 1 since0 rb_full4 0
  = Ret (Some 1%nat, None)
        (mkRingBuffer 4 1 3 0
           [mkNode 4 None; mkNode 2 (Some 2%nat);
            mkNode 3 (Some 3%nat); mkNode 4 (Some 4%nat)]) /\
  tail (mkRingBuffer 4 1 3 0
          [mkNode 4 None; mkNode 2 (Some 2%nat);
           mkNode 3 (Some 3%nat); mkNode 4 (Some 4%nat)]) = tail rb_full4.
Proof.
  assert (Poll 1 since0 rb_full4 0
          = Ret (Some 1%nat, None)
                (mkRingBuffer 4 1 3 0
                   [mkNode 4 None; mkNode 2 (Some 2%nat);
                    mkNode 3 (Some 3%nat); mkNode 4 (Some 4%nat)])) as Hp
    by (vm_compute; reflexivity).
  split; [exact Hp|].
  exact (proj1 (Poll_leaves_the_rest_alone _ _ _ _ _ _ _ Hp)).
Defined.

End queue.
